(** * ImageProcessor: a verification model of [dist/image-processor.js]

    The plugin glues a host image element, two canvases and a scratch image
    to an external canvas engine and an external effects engine.  The
    development embeds its own logic: the JavaScript primitives it relies
    on ([parseInt], [typeof]), the slice of the DOM and of jQuery it
    manipulates, the per-instance state with the browser's timer table and
    the effects engine's in-flight requests, and the plugin's private and
    public methods.  *)

From stdpp Require Import base gmap sets list strings pretty.
From Stdlib Require Import ZArith Lia Ascii.

Local Open Scope Z_scope.

(* ===================================================================== *)
(** * JavaScript values and the primitives the plugin calls *)
(* ===================================================================== *)

Module Js.

(** The values that reach the plugin through its options and arguments.
    [JInt n] is an integer-valued number whose string form is its plain
    decimal numeral; strings are ASCII. *)
Inductive JsValue :=
| JUndefined
| JNull
| JBool (b : bool)
| JInt (n : Z)
| JNaN
| JInfinity (negative : bool)
| JStr (s : string)
| JFunction (f : nat).

(** [typeof v] *)
Definition typeof (v : JsValue) : string :=
  match v with
  | JUndefined => "undefined"
  | JNull => "object"
  | JBool _ => "boolean"
  | JInt _ | JNaN | JInfinity _ => "number"
  | JStr _ => "string"
  | JFunction _ => "function"
  end.

(** [typeof v === "function"] *)
Definition is_function (v : JsValue) : bool :=
  bool_decide (typeof v = "function").

(** [String(v)], the conversion [parseInt] applies to its argument.  The
    source text of a function is abbreviated to its first keyword. *)
Definition to_string (v : JsValue) : string :=
  match v with
  | JUndefined => "undefined"
  | JNull => "null"
  | JBool true => "true"
  | JBool false => "false"
  | JInt n => pretty n
  | JNaN => "NaN"
  | JInfinity false => "Infinity"
  | JInfinity true => "-Infinity"
  | JStr s => s
  | JFunction _ => "function"
  end.

(** White space skipped by [parseInt]: TAB, LF, VT, FF, CR, SP. *)
Definition is_space (c : ascii) : bool :=
  let n := N_of_ascii c in
  ((9 <=? n) && (n <=? 13) || (n =? 32))%N.

Definition digit_of (c : ascii) : option Z :=
  let n := N_of_ascii c in
  if ((48 <=? n) && (n <=? 57))%N then Some (Z.of_N n - 48) else None.

Fixpoint skip_spaces (s : string) : string :=
  match s with
  | String c s' => if is_space c then skip_spaces s' else s
  | EmptyString => s
  end.

(** The longest prefix of decimal digits of [s], read as a number on top
    of the accumulator [acc] ([None] as long as no digit was read). *)
Fixpoint read_digits (acc : option Z) (s : string) : option Z :=
  match s with
  | String c s' =>
      match digit_of c with
      | Some d => read_digits (Some (10 * default 0 acc + d)) s'
      | None => acc
      end
  | EmptyString => acc
  end.

(** [parseInt(s, 10)] on a string; [None] is NaN. *)
Definition parse_int_string (s : string) : option Z :=
  match skip_spaces s with
  | String "-" s' => Z.opp <$> read_digits None s'
  | String "+" s' => read_digits None s'
  | s' => read_digits None s'
  end.

(** [parseInt(v, 10)] *)
Definition parseInt (v : JsValue) : option Z := parse_int_string (to_string v).

(** [isNaN(x)] for the result of [parseInt]. *)
Definition isNaN (x : option Z) : bool :=
  match x with None => true | Some _ => false end.

End Js.

(* ===================================================================== *)
(** * The document: element trees and the jQuery operations used *)
(* ===================================================================== *)

Module Dom.

(** An element.  [handle] is the identity of the DOM object (two elements
    may carry the same [ident], never the same handle); [ident] is the id
    attribute, the empty string when there is none.  Identifiers are
    plain names, as the plugin's defaults are, so that ["#" + id] selects
    by id and the markup strings the plugin builds parse to one element. *)
#[local] Unset Elimination Schemes.
Inductive Node :=
  Element (handle : nat) (tag : string) (ident : string)
          (attrs : gmap string string) (css : gmap string string)
          (children : list Node).
#[local] Set Elimination Schemes.

Definition handle (n : Node) : nat :=
  match n with Element h _ _ _ _ _ => h end.
Definition tag (n : Node) : string :=
  match n with Element _ t _ _ _ _ => t end.
Definition ident (n : Node) : string :=
  match n with Element _ _ i _ _ _ => i end.
Definition attrs (n : Node) : gmap string string :=
  match n with Element _ _ _ a _ _ => a end.
Definition css (n : Node) : gmap string string :=
  match n with Element _ _ _ _ c _ => c end.
Definition children (n : Node) : list Node :=
  match n with Element _ _ _ _ _ ks => ks end.

(** The children of the document node, in document order. *)
Definition Forest := list Node.

(** An element followed by its descendants, in document order. *)
Fixpoint subtree (n : Node) : list Node :=
  match n with
  | Element _ _ _ _ _ ks => n :: flat_map subtree ks
  end.

Definition descendants (n : Node) : list Node := flat_map subtree (children n).

Definition all_nodes (d : Forest) : list Node := flat_map subtree d.

Definition has_handle (h : nat) (n : Node) : bool := Nat.eqb (handle n) h.
Definition has_ident (i : string) (n : Node) : bool := bool_decide (ident n = i).
Definition has_tag (t : string) (n : Node) : bool := bool_decide (tag n = t).

(** A jQuery object: the handles of the matched elements. *)
Definition JQuery := list nat.

(** The element object behind a handle. *)
Definition node_of (d : Forest) (h : nat) : option Node :=
  List.find (has_handle h) (all_nodes d).

(** [$("#" + id)]: the first element of the document with that id. *)
Definition by_id (d : Forest) (i : string) : JQuery :=
  match List.find (has_ident i) (all_nodes d) with
  | Some n => [handle n]
  | None => []
  end.

(** [$(tagName)]: every element with that tag. *)
Definition by_tag (d : Forest) (t : string) : JQuery :=
  map handle (List.filter (has_tag t) (all_nodes d)).

(** [$el.find("#" + id)]: the descendants of the matched elements that
    carry the id. *)
Definition find_id (d : Forest) (q : JQuery) (i : string) : list Node :=
  flat_map (fun h =>
    match node_of d h with
    | Some n => List.filter (has_ident i) (descendants n)
    | None => []
    end) q.

(** Every element with the id; a document is well formed for the id when
    there is at most one. *)
Definition with_ident (d : Forest) (i : string) : list Node :=
  List.filter (has_ident i) (all_nodes d).

(** Apply [f] to the element with handle [h], wherever it is. *)
Fixpoint update_node (f : Node -> Node) (h : nat) (n : Node) : Node :=
  match n with
  | Element h' t i a c ks =>
      let n' := Element h' t i a c (map (update_node f h) ks) in
      if Nat.eqb h' h then f n' else n'
  end.

Definition update (f : Node -> Node) (h : nat) (d : Forest) : Forest :=
  map (update_node f h) d.

Definition set_attr (k v : string) (n : Node) : Node :=
  match n with Element h t i a c ks => Element h t i (<[k := v]> a) c ks end.

Definition set_css (props : list (string * string)) (n : Node) : Node :=
  match n with
  | Element h t i a c ks =>
      Element h t i a (foldl (fun m kv => <[kv.1 := kv.2]> m) c props) ks
  end.

Definition push_child (new : Node) (n : Node) : Node :=
  match n with Element h t i a c ks => Element h t i a c (ks ++ [new]) end.

(** [$el.attr(name, value)] with a value that is neither undefined nor
    null nor a function: the attribute of every matched element becomes
    the value's string. *)
Definition attr (q : JQuery) (k v : string) (d : Forest) : Forest :=
  foldl (fun d h => update (set_attr k v) h d) d q.

(** [$el.css({...})] *)
Definition set_style (q : JQuery) (props : list (string * string)) (d : Forest) : Forest :=
  foldl (fun d h => update (set_css props) h d) d q.

(** Put [new] right after the element with handle [h] in a list of
    siblings. *)
Definition splice_after (h : nat) (new : Node) (l : list Node) : list Node :=
  flat_map (fun k => if has_handle h k then [k; new] else [k]) l.

Fixpoint insert_after_node (h : nat) (new : Node) (n : Node) : Node :=
  match n with
  | Element h' t i a c ks =>
      Element h' t i a c (splice_after h new (map (insert_after_node h new) ks))
  end.

Definition insert_after (h : nat) (new : Node) (d : Forest) : Forest :=
  splice_after h new (map (insert_after_node h new) d).




(** The document together with the supply of fresh element handles. *)
Record Document := mkDocument { roots : Forest; next_handle : nat }.

Definition fresh_element (t i : string) (d : Document) : Node :=
  Element (next_handle d) t i ∅ ∅ [].

(** [$el.append('<tag id="i"></tag>')]: one new element is appended as
    the last child of every matched element. *)
Definition append (q : JQuery) (t i : string) (d : Document) : Document :=
  foldl (fun d h =>
           mkDocument (update (push_child (fresh_element t i d)) h (roots d))
                      (S (next_handle d)))
        d q.

(** [$el.after('<tag id="i" />')]: one new element is inserted as the
    next sibling of every matched element. *)
Definition after (q : JQuery) (t i : string) (d : Document) : Document :=
  foldl (fun d h =>
           mkDocument (insert_after h (fresh_element t i d) (roots d))
                      (S (next_handle d)))
        d q.

Definition on_roots (f : Forest -> Forest) (d : Document) : Document :=
  mkDocument (f (roots d)) (next_handle d).


End Dom.

(* ===================================================================== *)
(** * Drawing surfaces and [buildGrid] *)
(* ===================================================================== *)

Module Grid.

(** The calls a 2-D drawing context receives. *)
Inductive CtxOp :=
| SetLineWidth (w : Z)
| SetStrokeStyle (color : string)
| MoveTo (x y : Z)
| LineTo (x y : Z)
| Stroke.

(** A native canvas element with integer pixel dimensions. *)
Record Canvas := mkCanvas { width : Z; height : Z }.

(** [for (; x < canvas.width; x += gridSize) { moveTo(x, 0); lineTo(x, canvas.height) }]
    The loop runs for as long as its test holds; [None] when [fuel]
    iterations were not enough to leave it. *)
Fixpoint vertical_lines (fuel : nat) (cv : Canvas) (gridSize x : Z) : option (list CtxOp) :=
  if x <? width cv then
    match fuel with
    | O => None
    | S fuel' =>
        ops ← vertical_lines fuel' cv gridSize (x + gridSize);
        Some (MoveTo x 0 :: LineTo x (height cv) :: ops)
    end
  else Some [].

(** [for (; y < canvas.height; y += gridSize) { moveTo(0, y); lineTo(canvas.width-1, y) }] *)
Fixpoint horizontal_lines (fuel : nat) (cv : Canvas) (gridSize y : Z) : option (list CtxOp) :=
  if y <? height cv then
    match fuel with
    | O => None
    | S fuel' =>
        ops ← horizontal_lines fuel' cv gridSize (y + gridSize);
        Some (MoveTo 0 y :: LineTo (width cv - 1) y :: ops)
    end
  else Some [].

(** [buildGrid(canvas, gridSize, color, lineWidth)]: the calls issued on
    the canvas's 2-D context, in order. *)
Definition buildGrid (fuel : nat) (cv : Canvas) (gridSize : Z) (color : string)
    (lineWidth : Z) : option (list CtxOp) :=
  vs ← vertical_lines fuel cv gridSize 0;
  hs ← horizontal_lines fuel cv gridSize 0;
  Some ([SetLineWidth lineWidth; SetStrokeStyle color] ++ vs ++ hs ++ [Stroke]).

(** A path segment: a [moveTo] followed by the [lineTo] that closes it. *)
Fixpoint segments (ops : list CtxOp) : list ((Z * Z) * (Z * Z)) :=
  match ops with
  | MoveTo x0 y0 :: ((LineTo x1 y1 :: _) as rest) => ((x0, y0), (x1, y1)) :: segments rest
  | _ :: rest => segments rest
  | [] => []
  end.

Definition is_vertical (s : (Z * Z) * (Z * Z)) : bool := s.1.1 =? s.2.1.
Definition is_horizontal (s : (Z * Z) * (Z * Z)) : bool := s.1.2 =? s.2.2.

(** The x coordinates of the vertical segments, the y coordinates of the
    horizontal ones. *)
Definition vertical_xs (ops : list CtxOp) : list Z :=
  map (fun s => s.1.1) (List.filter is_vertical (segments ops)).
Definition horizontal_ys (ops : list CtxOp) : list Z :=
  map (fun s => s.1.2) (List.filter is_horizontal (segments ops)).

End Grid.

(* ===================================================================== *)
(** * The plugin instance in its environment *)
(* ===================================================================== *)

Module Plugin.
Import Js Dom.

(** The events the plugin triggers on its host element:
    ["image:loaded"], ["image:loadError"], ["image:effectError"]. *)
Inductive Notification := ImageLoaded | ImageLoadError | ImageEffectError.

(** Events the browser dispatches on the host element by itself. *)
Inductive NativeEvent := NativeLoad | NativeError | NativeAbort.

(** The piece of plugin code that called [trigger]: the deferred load
    check, the listener it installs for the native load event, or the
    timeout closure of the [applyEffect] activation [call]. *)
Inductive Origin := FromCheck | FromLoadListener | FromTimeout (call : nat).

(** The drawing surface an effects engine hands to its completion
    function; opaque. *)
Definition Surface := nat.

(** What can be observed of a run, oldest first. *)
Inductive Action :=
| Fired (n : Notification) (o : Origin)
| HandlerRun (n : Notification) (f : nat)
| CallbackRun (call : nat) (f : nat) (result : Surface).

(** The options bag of an effect. *)
Definition EffectOptions := list (string * JsValue).

(** A value stored in the [effects] mapping: null or undefined, or an
    object with a possibly missing [options] property. *)
Inductive EffectEntry :=
| EntryNullish
| EntryObject (options : option EffectOptions).

(** [this.settings], that is [$.extend({}, defaults, options)], as far as
    the plugin's own code reads it. *)
Record Settings := mkSettings {
  scratchCanvasId : string;
  scratchImageId : string;
  stageId : string;
  stageWidth : JsValue;
  stageHeight : JsValue;
  scratchCanvasWidth : JsValue;
  scratchCanvasHeight : JsValue;
  effectTimeout : JsValue;
  effects : gmap string EffectEntry;
  onLoad : JsValue;
  onLoadError : JsValue;
  onEffectError : JsValue
}.

(** The options a caller passes; [None] is a key left out. *)
Record Options := mkOptions {
  opt_scratchCanvasId : option string;
  opt_scratchImageId : option string;
  opt_stageId : option string;
  opt_stageWidth : option JsValue;
  opt_stageHeight : option JsValue;
  opt_scratchCanvasWidth : option JsValue;
  opt_scratchCanvasHeight : option JsValue;
  opt_effectTimeout : option JsValue;
  opt_effects : gmap string EffectEntry;
  opt_onLoad : option JsValue;
  opt_onLoadError : option JsValue;
  opt_onEffectError : option JsValue
}.

(** [$.extend({}, defaults, options)] *)
Definition extend_defaults (o : Options) : Settings :=
  {| scratchCanvasId := default "scratchCanvas" (opt_scratchCanvasId o);
     scratchImageId := default "img" (opt_scratchImageId o);
     stageId := default "stage" (opt_stageId o);
     stageWidth := default (JInt 0) (opt_stageWidth o);
     stageHeight := default (JInt 0) (opt_stageHeight o);
     scratchCanvasWidth := default (JInt 0) (opt_scratchCanvasWidth o);
     scratchCanvasHeight := default (JInt 0) (opt_scratchCanvasHeight o);
     effectTimeout := default (JInt 30000) (opt_effectTimeout o);
     effects := opt_effects o;
     onLoad := default JUndefined (opt_onLoad o);
     onLoadError := default JUndefined (opt_onLoadError o);
     onEffectError := default JUndefined (opt_onEffectError o) |}.

(** The fields of the host element the load check reads: [complete], and
    [naturalWidth] ([None] where the browser does not define it). *)
Record ImageState := mkImageState { complete : bool; naturalWidth : option Z }.

(** What a pending timer runs: [_checkImageLoaded.bind(this)] from
    [init], or the timeout closure of an [applyEffect] activation. *)
Inductive TimerTask := DeferredCheck | EffectTimeout (call : nat).

(** The function the load check installs for the native load event:
    [function() { self.$element.trigger("image:loaded") }]. *)
Inductive Closure := TriggerLoaded.

(** The variables an [applyEffect] activation shares with its two
    closures.  The activation is named by the handle [setTimeout]
    returned to it, which is its [timer] variable. *)
Record Activation := mkActivation { timedOut : bool; callback : JsValue }.

(** The third argument of [applyEffect]. *)
Inductive Target :=
| TUndefined
| TNull
| TElement (h : nat)
| TCollection (q : JQuery).

(** A [process(target, effectName, options, completion)] call the effects
    engine has received and not yet completed. *)
Record Request := mkRequest {
  req_target : Target;
  req_effect : string;
  req_options : EffectOptions
}.

(** The plugin object ([this]) after construction. *)
Record Instance := mkInstance {
  element : nat;
  elementId : string;
  settings : Settings;
  scratchImageEl : JQuery;
  stageEl : JQuery;
  scratchCanvasEl : JQuery
}.

(** The instance in its environment: the document, the host image's load
    state, the listeners jQuery holds for the host element, the
    browser's pending timers, the live [applyEffect] activations, the
    engine's requests in flight, and the log of what happened.  A timer
    leaves [timers] when it fires or is cleared; a request leaves
    [requests] when the engine calls its completion function, which an
    engine does once per request at most. *)
Record World := mkWorld {
  this : Instance;
  doc : Document;
  image : ImageState;
  handlers : list (Notification * nat);
  nativeListeners : list (NativeEvent * Closure);
  timers : gmap nat (TimerTask * JsValue);
  next_timer : nat;
  calls : gmap nat Activation;
  requests : gmap nat Request;
  log : list Action
}.

Definition set_image (i : ImageState) (w : World) : World :=
  mkWorld (this w) (doc w) i (handlers w) (nativeListeners w)
          (timers w) (next_timer w) (calls w) (requests w) (log w).
Definition set_handlers (f : list (Notification * nat) -> list (Notification * nat))
    (w : World) : World :=
  mkWorld (this w) (doc w) (image w) (f (handlers w)) (nativeListeners w)
          (timers w) (next_timer w) (calls w) (requests w) (log w).
Definition set_nativeListeners
    (f : list (NativeEvent * Closure) -> list (NativeEvent * Closure)) (w : World) : World :=
  mkWorld (this w) (doc w) (image w) (handlers w) (f (nativeListeners w))
          (timers w) (next_timer w) (calls w) (requests w) (log w).
Definition set_timers (f : gmap nat (TimerTask * JsValue) -> gmap nat (TimerTask * JsValue))
    (w : World) : World :=
  mkWorld (this w) (doc w) (image w) (handlers w) (nativeListeners w)
          (f (timers w)) (next_timer w) (calls w) (requests w) (log w).
Definition set_next_timer (n : nat) (w : World) : World :=
  mkWorld (this w) (doc w) (image w) (handlers w) (nativeListeners w)
          (timers w) n (calls w) (requests w) (log w).
Definition set_calls (f : gmap nat Activation -> gmap nat Activation) (w : World) : World :=
  mkWorld (this w) (doc w) (image w) (handlers w) (nativeListeners w)
          (timers w) (next_timer w) (f (calls w)) (requests w) (log w).
Definition set_requests (f : gmap nat Request -> gmap nat Request) (w : World) : World :=
  mkWorld (this w) (doc w) (image w) (handlers w) (nativeListeners w)
          (timers w) (next_timer w) (calls w) (f (requests w)) (log w).
Definition add_log (a : list Action) (w : World) : World :=
  mkWorld (this w) (doc w) (image w) (handlers w) (nativeListeners w)
          (timers w) (next_timer w) (calls w) (requests w) (log w ++ a).

Global Instance Notification_eq_dec : EqDecision Notification.
Proof. solve_decision. Defined.
Global Instance NativeEvent_eq_dec : EqDecision NativeEvent.
Proof. solve_decision. Defined.
Global Instance Origin_eq_dec : EqDecision Origin.
Proof. solve_decision. Defined.
Global Instance Action_eq_dec : EqDecision Action.
Proof. solve_decision. Defined.

(** ** The browser's timers *)

(** [setTimeout(task, delay)]: the task is pending under a fresh handle,
    which is returned. *)
Definition setTimeout (task : nat -> TimerTask) (delay : JsValue) (w : World) : World * nat :=
  let t := next_timer w in
  (set_next_timer (S t) (set_timers (insert t (task t, delay)) w), t).

(** [clearTimeout(timer)] *)
Definition clearTimeout (t : nat) (w : World) : World :=
  set_timers (delete t) w.

(** ** Events on the host element *)

(** [self.$element.trigger(name)]: the handlers registered for the
    event run in the order of their registration. *)
Definition trigger (n : Notification) (o : Origin) (w : World) : World :=
  add_log (Fired n o ::
           map (fun h => HandlerRun n h.2)
               (List.filter (fun h => bool_decide (h.1 = n)) (handlers w))) w.

Definition run_closure (c : Closure) (w : World) : World :=
  match c with
  | TriggerLoaded => trigger ImageLoaded FromLoadListener w
  end.

(** The browser dispatches a native event: the listeners registered for
    it run in order. *)
Definition dispatch (e : NativeEvent) (w : World) : World :=
  foldl (fun w l => if bool_decide (l.1 = e) then run_closure l.2 w else w)
        w (nativeListeners w).

(** ** Private methods *)

(** What the plugin hands to [$( )]: a tag selector (["body"]) or an
    element object. *)
Inductive Selectable := Selector (tagName : string) | ElementRef (h : nat).

Definition jq (s : Selectable) (d : Document) : JQuery :=
  match s with
  | Selector t => by_tag (roots d) t
  | ElementRef h => [h]
  end.

Definition offscreen_style : list (string * string) :=
  [("position", "absolute"); ("top", "-9999em"); ("left", "-9999em")].
Definition onscreen_style : list (string * string) :=
  [("position", "static"); ("top", "inherit"); ("left", "inherit")].

(** [moveOffscreen($el)], [moveOnscreen($el)], [swapOnscreen($offEl, $onEl)] *)
Definition moveOffscreen (el : JQuery) (d : Document) : Document :=
  on_roots (set_style el offscreen_style) d.
Definition moveOnscreen (el : JQuery) (d : Document) : Document :=
  on_roots (set_style el onscreen_style) d.
Definition swapOnscreen (offEl onEl : JQuery) (d : Document) : Document :=
  moveOnscreen onEl (moveOffscreen offEl d).

(** [_setWidth(el, w)], [_setHeight(el, h)] *)
Definition _setWidth (el : JQuery) (w : JsValue) (d : Document) : Document :=
  if isNaN (parseInt w) then d
  else on_roots (attr el "width" (to_string w)) d.
Definition _setHeight (el : JQuery) (h : JsValue) (d : Document) : Document :=
  if isNaN (parseInt h) then d
  else on_roots (attr el "height" (to_string h)) d.

(** [_setDimensions(el, {width: w, height: h})]; both arguments are
    defined at the two call sites. *)
Definition _setDimensions (el : JQuery) (w h : JsValue) (d : Document) : Document :=
  _setHeight el h (_setWidth el w d).

(** [_appendCanvas(target, id)].  The assignment to [crossOrigin] lands
    on the jQuery wrapper and leaves the document alone. *)
Definition _appendCanvas (target : Selectable) (id : string) (d : Document) : Document :=
  let d1 :=
    if Nat.eqb (length (find_id (roots d) (jq target d) id)) 0
    then append (jq target d) "canvas" id d
    else d in
  moveOffscreen (by_id (roots d1) id) d1.

(** [_appendImage(target, id)] *)
Definition _appendImage (target : Selectable) (id : string) (d : Document) : Document :=
  let d1 :=
    if Nat.eqb (length (find_id (roots d) (jq target d) id)) 0
    then after (jq target d) "img" id d
    else d in
  moveOffscreen (by_id (roots d1) id) d1.

(** [_checkImageNotFound(imgEl)] *)
Definition _checkImageNotFound (img : ImageState) : bool :=
  complete img &&
  match naturalWidth img with
  | Some n => n =? 0
  | None => false
  end.

(** [_checkImageLoaded()] *)
Definition _checkImageLoaded (w : World) : World :=
  if _checkImageNotFound (image w) then trigger ImageLoadError FromCheck w
  else if complete (image w) then trigger ImageLoaded FromCheck w
  else set_nativeListeners (fun l => l ++ [(NativeLoad, TriggerLoaded)]) w.

(** [_addHandler(eventName, handler)] *)
Definition _addHandler (n : Notification) (handler : JsValue) (w : World) : World :=
  match handler with
  | JFunction f => set_handlers (fun l => l ++ [(n, f)]) w
  | _ => w
  end.

(** ** Construction *)

Definition set_ident (i : string) (n : Node) : Node :=
  match n with Element h t _ a c ks => Element h t i a c ks end.

(** [init()], on the world the constructor prepared.  The stage and
    context objects of the canvas engine that [init] stores are that
    engine's business and are left out. *)
Definition init (host : nat) (hostId : string) (s : Settings) (d : Document)
    (img : ImageState) : World :=
  let scratchImageId := s.(scratchImageId) +:+ "_" +:+ hostId in
  let d := _appendCanvas (Selector "body") s.(stageId) d in
  let d := _appendCanvas (Selector "body") s.(scratchCanvasId) d in
  let d := _appendImage (ElementRef host) scratchImageId d in
  let this :=
    {| element := host;
       elementId := hostId;
       settings := s;
       scratchImageEl := by_id (roots d) scratchImageId;
       stageEl := by_id (roots d) s.(stageId);
       scratchCanvasEl := by_id (roots d) s.(scratchCanvasId) |} in
  let d := _setDimensions this.(stageEl) s.(stageWidth) s.(stageHeight) d in
  let d := _setDimensions this.(scratchCanvasEl)
             s.(scratchCanvasWidth) s.(scratchCanvasHeight) d in
  let w := mkWorld this d img [] [] ∅ 0 ∅ ∅ [] in
  let w := _addHandler ImageLoaded s.(onLoad) w in
  let w := _addHandler ImageLoadError s.(onLoadError) w in
  let w := _addHandler ImageEffectError s.(onEffectError) w in
  (setTimeout (fun _ => DeferredCheck) JUndefined w).1.

(** [new Plugin(element, options)] on a host element of the document;
    [now] is [new Date().getTime()]. *)
Definition construct (host : nat) (options : Options) (now : N) (d : Document)
    (img : ImageState) : World :=
  let id := match node_of (roots d) host with Some n => ident n | None => "" end in
  let hostId := if bool_decide (id = "") then "_" +:+ pretty now else id in
  let d := on_roots (update (set_ident hostId) host) d in
  init host hostId (extend_defaults options) d img.

(** ** Public methods *)


(** How a call ended. *)
Inductive Completion := Returned | ThrewTypeError.

(** [target.length] and [target[0]] of a target that is neither
    undefined nor null: a collection that matched something stands for
    its first element. *)
Definition first_of (target : Target) : Target :=
  match target with
  | TCollection (h :: _) => TElement h
  | _ => target
  end.

(** [applyEffect(effectName, target, callback)] *)
Definition applyEffect (effectName : string) (target : Target) (cb : JsValue)
    (w : World) : World * Completion :=
  match effects (settings (this w)) !! effectName, target with
  | None, _ => (w, Returned)
  | Some _, TUndefined => (w, Returned)
  | Some _, TNull => (w, ThrewTypeError)
  | Some EntryNullish, _ => (w, ThrewTypeError)
  | Some (EntryObject options), _ =>
      let target := first_of target in
      let options := default [] options in
      let '(w, timer) := setTimeout EffectTimeout (effectTimeout (settings (this w))) w in
      let w := set_calls (insert timer (mkActivation false cb)) w in
      (set_requests (insert timer (mkRequest target effectName options)) w, Returned)
  end.

(** The timeout closure of activation [c]:
    [function() { timedOut = true; self.$element.trigger("image:effectError") }] *)
Definition on_timeout (c : nat) (w : World) : World :=
  trigger ImageEffectError (FromTimeout c)
          (set_calls (alter (fun a => mkActivation true (callback a)) c) w).

(** The completion function activation [c] passes to the engine:
    [function(resultCanvas) { if (!timedOut && typeof callback === "function")
       { clearTimeout(timer); callback(resultCanvas) } }] *)
Definition on_complete (c : nat) (resultCanvas : Surface) (w : World) : World :=
  match calls w !! c with
  | Some a =>
      match callback a with
      | JFunction f =>
          if timedOut a then w
          else add_log [CallbackRun c f resultCanvas] (clearTimeout c w)
      | _ => w
      end
  | None => w
  end.

(** ** The event loop *)

(** What can happen to a constructed instance: the caller invokes
    [applyEffect], the browser runs a pending timer, the engine calls
    the completion function of a request in flight, the browser
    dispatches a native event on the host element, or the host image's
    load state changes. *)
Inductive Event :=
| EvApplyEffect (effectName : string) (target : Target) (cb : JsValue)
| EvTimer (t : nat)
| EvEngineDone (c : nat) (resultCanvas : Surface)
| EvNative (e : NativeEvent)
| EvImage (img : ImageState).

Definition run_task (task : TimerTask) (w : World) : World :=
  match task with
  | DeferredCheck => _checkImageLoaded w
  | EffectTimeout c => on_timeout c w
  end.

(** One event; [None] when the event cannot happen in this world (a
    timer that is not pending, a request that is not in flight). *)
Definition step (e : Event) (w : World) : option World :=
  match e with
  | EvApplyEffect effectName target cb => Some (applyEffect effectName target cb w).1
  | EvTimer t =>
      match timers w !! t with
      | Some (task, _) => Some (run_task task (set_timers (delete t) w))
      | None => None
      end
  | EvEngineDone c r =>
      match requests w !! c with
      | Some _ => Some (on_complete c r (set_requests (delete c) w))
      | None => None
      end
  | EvNative e => Some (dispatch e w)
  | EvImage img => Some (set_image img w)
  end.

Fixpoint run (es : list Event) (w : World) : option World :=
  match es with
  | [] => Some w
  | e :: es' => w' ← step e w; run es' w'
  end.

(** ** Reading the log *)

Definition fired (n : Notification) (l : list Action) : list Origin :=
  omap (fun a => match a with
                 | Fired n' o => if bool_decide (n' = n) then Some o else None
                 | _ => None
                 end) l.

(** How often the notification was raised, by any part of the plugin. *)
Definition raised (n : Notification) (l : list Action) : nat := length (fired n l).

(** How often the timeout closure of activation [c] raised
    ["image:effectError"]. *)
Definition effect_errors (c : nat) (l : list Action) : nat :=
  length (List.filter (fun o => bool_decide (o = FromTimeout c)) (fired ImageEffectError l)).

(** The results activation [c] passed to its caller's callback. *)
Definition callback_results (c : nat) (l : list Action) : list Surface :=
  omap (fun a => match a with
                 | CallbackRun c' _ r => if Nat.eqb c' c then Some r else None
                 | _ => None
                 end) l.

End Plugin.

(* ===================================================================== *)
(** * One [applyEffect] activation seen on its own *)
(* ===================================================================== *)

Module Race.
Import Js Dom Plugin.

(** The log entries that belong to activation [c]: the notification its
    timeout closure raised and the calls of its caller's callback. *)
Definition about (c : nat) (a : Action) : bool :=
  match a with
  | Fired _ (FromTimeout c') => Nat.eqb c' c
  | CallbackRun c' _ _ => Nat.eqb c' c
  | _ => false
  end.

Definition history (c : nat) (l : list Action) : list Action := List.filter (about c) l.

(** The events that run one of the two closures of activation [c]. *)
Definition concerns (c : nat) (e : Event) : bool :=
  match e with
  | EvTimer t => Nat.eqb t c
  | EvEngineDone c' _ => Nat.eqb c' c
  | _ => false
  end.

Definition events_of (c : nat) (es : list Event) : list Event := List.filter (concerns c) es.

(** What the world holds for one activation: whether its timer is still
    pending, whether its request is still in flight, its variables, and
    its part of the log. *)
Record CallState := mkCallState {
  timer_pending : bool;
  in_flight : bool;
  env : Activation;
  past : list Action
}.

Definition present {A} (o : option A) : bool :=
  match o with Some _ => true | None => false end.

Definition view (c : nat) (w : World) : option CallState :=
  a ← calls w !! c;
  Some (mkCallState (present (timers w !! c)) (present (requests w !! c)) a
                    (history c (log w))).

(** The two closures of the activation, on its own state; every other
    event leaves it alone. *)
Definition call_step (c : nat) (e : Event) (s : CallState) : option CallState :=
  if concerns c e then
    match e with
    | EvTimer _ =>
        if timer_pending s
        then Some (mkCallState false (in_flight s)
                     (mkActivation true (callback (env s)))
                     (past s ++ [Fired ImageEffectError (FromTimeout c)]))
        else None
    | EvEngineDone _ r =>
        if in_flight s
        then match callback (env s) with
             | JFunction f =>
                 if timedOut (env s)
                 then Some (mkCallState (timer_pending s) false (env s) (past s))
                 else Some (mkCallState false false (env s)
                              (past s ++ [CallbackRun c f r]))
             | _ => Some (mkCallState (timer_pending s) false (env s) (past s))
             end
        else None
    | _ => Some s
    end
  else Some s.

Fixpoint call_run (c : nat) (es : list Event) (s : CallState) : option CallState :=
  match es with
  | [] => Some s
  | e :: es' => s' ← call_step c e s; call_run c es' s'
  end.

(** The state of an activation when [applyEffect] returns. *)
Definition racing (cb : JsValue) : CallState :=
  mkCallState true true (mkActivation false cb) [].

(** Timer handles are handed out in increasing order, a timeout closure
    sits under the handle of its own activation, the deferred check is no
    activation, and the log speaks of past activations only. *)
Record wf (w : World) : Prop := mkWf {
  wf_timers : ∀ t task d, timers w !! t = Some (task, d) →
    (t < next_timer w)%nat ∧
    match task with
    | EffectTimeout c => c = t
    | DeferredCheck => calls w !! t = None
    end;
  wf_calls : ∀ c, is_Some (calls w !! c) → (c < next_timer w)%nat;
  wf_log : ∀ a c, a ∈ log w → about c a = true → (c < next_timer w)%nat
}.

(** A world some constructed instance is in after some events. *)
Definition reachable (w : World) : Prop :=
  ∃ host options now d img es, run es (construct host options now d img) = Some w.

(** Log entries no activation owns. *)
Definition anonymous (a : Action) : Prop := ∀ c, about c a = false.

(** A step that touches no activation: timers, activations and requests
    stay, and the log grows by anonymous entries. *)
Definition bystander (w w' : World) : Prop :=
  timers w' = timers w ∧ next_timer w' = next_timer w ∧ calls w' = calls w ∧
  requests w' = requests w ∧ ∃ l, log w' = log w ++ l ∧ Forall anonymous l.

(** What can have happened to an activation that started with callback
    [cb], by the events that ran its closures, and the state it is in. *)
Inductive outcome (c : nat) (cb : JsValue) : list Event → CallState → Prop :=
| still_racing :
    outcome c cb [] (racing cb)
| timed_out :
    outcome c cb [EvTimer c]
      (mkCallState false true (mkActivation true cb)
                   [Fired ImageEffectError (FromTimeout c)])
| timed_out_then_completed r :
    outcome c cb [EvTimer c; EvEngineDone c r]
      (mkCallState false false (mkActivation true cb)
                   [Fired ImageEffectError (FromTimeout c)])
| completed f r :
    cb = JFunction f →
    outcome c cb [EvEngineDone c r]
      (mkCallState false false (mkActivation false cb) [CallbackRun c f r])
| completed_unheard r :
    is_function cb = false →
    outcome c cb [EvEngineDone c r]
      (mkCallState true false (mkActivation false cb) [])
| completed_then_timed_out r :
    is_function cb = false →
    outcome c cb [EvEngineDone c r; EvTimer c]
      (mkCallState false false (mkActivation true cb)
                   [Fired ImageEffectError (FromTimeout c)]).

End Race.

(* ===================================================================== *)
(** * The life of an instance around its deferred load check *)
(* ===================================================================== *)

Module Load.
Import Js Dom Plugin Race.

(** Before the deferred check has run. *)
Record awaiting_check (w : World) : Prop := mkAwaiting {
  aw_timer : ∃ d, timers w !! 0%nat = Some (DeferredCheck, d);
  aw_only : ∀ t d, timers w !! t = Some (DeferredCheck, d) → t = 0%nat;
  aw_next : (0 < next_timer w)%nat;
  aw_listeners : nativeListeners w = [];
  aw_loaded : raised ImageLoaded (log w) = 0%nat;
  aw_loadError : raised ImageLoadError (log w) = 0%nat
}.

(** After it: no timer will run the check again. *)
Definition check_done (w : World) : Prop :=
  ∀ t d, timers w !! t ≠ Some (DeferredCheck, d).

(** Steps that leave the deferred check and the load-error count alone. *)
Definition calm (w w' : World) : Prop :=
  timers w' = timers w ∧ next_timer w' = next_timer w ∧
  nativeListeners w' = nativeListeners w ∧
  raised ImageLoadError (log w') = raised ImageLoadError (log w) ∧
  (raised ImageLoaded (log w) ≤ raised ImageLoaded (log w'))%nat.

(** An instance is either still waiting for its deferred check, which
    [init] put under timer handle 0, or has run it for good. *)
Definition lifecycle (w : World) : Prop :=
  awaiting_check w ∨ ((0 < next_timer w)%nat ∧ timers w !! 0%nat = None ∧ check_done w).

End Load.

(* ===================================================================== *)
(** * A page to run the plugin on *)
(* ===================================================================== *)

Module Fixture.
Import Js Dom Plugin.

(** [<body><img id="photo"></body>] *)
Definition page : Document :=
  mkDocument [Element 0 "body" "" ∅ ∅ [Element 1 "img" "photo" ∅ ∅ []]] 2.

(** [{ effectTimeout: 50, effects: { blur: {} }, onEffectError: f9 }] *)
Definition options : Options :=
  {| opt_scratchCanvasId := None; opt_scratchImageId := None; opt_stageId := None;
     opt_stageWidth := None; opt_stageHeight := None;
     opt_scratchCanvasWidth := None; opt_scratchCanvasHeight := None;
     opt_effectTimeout := Some (JInt 50);
     opt_effects := {[ "blur" := EntryObject None ]};
     opt_onLoad := None; opt_onLoadError := None;
     opt_onEffectError := Some (JFunction 9) |}.

(** The image has not finished loading when the plugin is constructed. *)
Definition loading : ImageState := mkImageState false None.

(** [$("#photo").imageProcessor(options)] *)
Definition world : World := construct 1 options 1234 page loading.

(** The world after [applyEffect("blur", photo, cb)]. *)
Definition applied (cb : JsValue) : World :=
  (applyEffect "blur" (TElement 1) cb world).1.

(** Options that configure the size of the stage canvas and nothing else. *)
Definition sized (w h : JsValue) : Options :=
  {| opt_scratchCanvasId := None; opt_scratchImageId := None; opt_stageId := None;
     opt_stageWidth := Some w; opt_stageHeight := Some h;
     opt_scratchCanvasWidth := None; opt_scratchCanvasHeight := None;
     opt_effectTimeout := None; opt_effects := ∅;
     opt_onLoad := None; opt_onLoadError := None; opt_onEffectError := None |}.

(** Handle, tag and id of an element. *)
Definition shape (n : Node) : nat * string * string := (handle n, tag n, ident n).

(** The world after a list of events, the starting world if they cannot
    all happen. *)
Definition after_events (es : list Event) (w : World) : World :=
  default w (run es w).

End Fixture.

(* ===================================================================== *)
(** * Reading documents: skeletons, style sheets, descendants *)
(* ===================================================================== *)

Module Shape.
Import Dom.

(** Handle, tag and id of every element, in document order. *)
Definition skeleton (d : Forest) : list (nat * string * string) :=
  map (fun n => (handle n, tag n, ident n)) (all_nodes d).




(** How many elements of a list satisfy a test. *)
Definition count_if {A} (p : A → bool) (l : list A) : nat := length (List.filter p l).


End Shape.

(* ===================================================================== *)
(** * Reading grids: the lines a positive grid size gives *)
(* ===================================================================== *)

Module Lines.
Import Grid.

(** The number of multiples [0, g, 2g, ...] of a positive [g] that lie
    below [extent]. *)
Definition iterations (extent g : Z) : Z := (extent + g - 1) / g.

(** The multiples of [g] below [extent], in increasing order. *)
Definition multiples (extent g : Z) : list Z :=
  (fun k => k * g) <$> seqZ 0 (iterations extent g).

Definition vertical_at (cv : Canvas) (x : Z) : list CtxOp :=
  [MoveTo x 0; LineTo x (height cv)].
Definition horizontal_at (cv : Canvas) (y : Z) : list CtxOp :=
  [MoveTo 0 y; LineTo (width cv - 1) y].

End Lines.

(* ===================================================================== *)
(** * Reading logs: resolutions, handler runs, native loads *)
(* ===================================================================== *)

Module Ledger.
Import Js Dom Plugin Race.

(** An activation is unresolved under its pending timer, or resolved by
    one run of its callback, or resolved by one timeout notification. *)
Definition resolution (c : nat) (s : CallState) : Prop :=
  (timer_pending s = true ∧ timedOut (env s) = false ∧ past s = []) ∨
  (timer_pending s = false ∧ in_flight s = false ∧ timedOut (env s) = false ∧
   ∃ f r, callback (env s) = JFunction f ∧ past s = [CallbackRun c f r]) ∨
  (timer_pending s = false ∧ timedOut (env s) = true ∧
   past s = [Fired ImageEffectError (FromTimeout c)]).










End Ledger.

(* ===================================================================== *)
(** * Facts about the event loop and single activations *)
(* ===================================================================== *)

Section RaceFacts.
Import Js Dom Plugin Race.

Lemma history_app c l1 l2 : history c (l1 ++ l2) = history c l1 ++ history c l2.
Proof. apply List.filter_app. Qed.

Lemma fired_app n l1 l2 : fired n (l1 ++ l2) = fired n l1 ++ fired n l2.
Proof. apply omap_app. Qed.

Lemma raised_app n l1 l2 : raised n (l1 ++ l2) = (raised n l1 + raised n l2)%nat.
Proof. unfold raised. by rewrite fired_app, length_app. Qed.

Lemma effect_errors_app c l1 l2 :
  effect_errors c (l1 ++ l2) = (effect_errors c l1 + effect_errors c l2)%nat.
Proof. unfold effect_errors. by rewrite fired_app, List.filter_app, length_app. Qed.

Lemma callback_results_app c l1 l2 :
  callback_results c (l1 ++ l2) = callback_results c l1 ++ callback_results c l2.
Proof. apply omap_app. Qed.

Lemma effect_errors_history c l : effect_errors c (history c l) = effect_errors c l.
Proof.
  induction l as [|a l IH]; [done|].
  change (a :: l) with ([a] ++ l).
  rewrite history_app, !effect_errors_app, IH. f_equal.
  destruct a as [[] [| |c']|n f|c' f r]; try reflexivity.
  - unfold history; simpl. by destruct (Nat.eqb c' c).
  - unfold history; simpl. by destruct (Nat.eqb c' c).
  - unfold history; simpl. destruct (Nat.eqb_spec c' c) as [->|Hne]; [done|].
    unfold effect_errors; simpl. rewrite bool_decide_false by congruence. done.
  - unfold history; simpl. by destruct (Nat.eqb c' c).
Qed.

Lemma callback_results_history c l : callback_results c (history c l) = callback_results c l.
Proof.
  induction l as [|a l IH]; [done|].
  change (a :: l) with ([a] ++ l).
  rewrite history_app, !callback_results_app, IH. f_equal.
  destruct a as [n [| |c']|n f|c' f r]; try reflexivity.
  - unfold history; simpl. by destruct (Nat.eqb c' c).
  - unfold history; simpl. destruct (Nat.eqb c' c) eqn:E.
    all: unfold callback_results; simpl; rewrite ?E; simpl; rewrite ?E; try done.

Qed.

Lemma history_handler_runs c n (hs : list (Notification * nat)) :
  history c (map (fun h => HandlerRun n h.2) hs) = [].
Proof. induction hs as [|h hs IH]; simpl; auto. Qed.

Lemma history_trigger c n o w :
  history c (log (trigger n o w)) = history c (log w) ++ history c [Fired n o].
Proof.
  unfold trigger; simpl. rewrite history_app. f_equal.
  match goal with |- history c (?a :: ?l) = _ => change (a :: l) with ([a] ++ l) end.
  by rewrite history_app, history_handler_runs, app_nil_r.
Qed.


Lemma history_anonymous c l : Forall anonymous l → history c l = [].
Proof.
  induction 1 as [|a l Ha _ IH]; [done|].
  unfold history in *; simpl. by rewrite (Ha c).
Qed.

Lemma bystander_refl w : bystander w w.
Proof. repeat split. exists []. by rewrite app_nil_r. Qed.

Lemma bystander_trans w1 w2 w3 : bystander w1 w2 → bystander w2 w3 → bystander w1 w3.
Proof.
  intros (Ht & Hn & Hc & Hr & l & Hl & Hf) (Ht' & Hn' & Hc' & Hr' & l' & Hl' & Hf').
  repeat split; try congruence.
  exists (l ++ l'). split; [by rewrite Hl', Hl, app_assoc|by apply Forall_app].
Qed.

Lemma trigger_bystander n o w :
  (∀ c, o ≠ FromTimeout c) → bystander w (trigger n o w).
Proof.
  intros Ho. repeat split. eexists; split; [reflexivity|].
  constructor.
  - intros c. destruct o; simpl; try done. by destruct (Ho call).
  - apply Forall_forall. intros a Ha. apply list_elem_of_fmap in Ha as (h & -> & _). by intros c.
Qed.

Lemma checkImageLoaded_bystander w : bystander w (_checkImageLoaded w).
Proof.
  unfold _checkImageLoaded.
  destruct (_checkImageNotFound (image w)); [by apply trigger_bystander|].
  destruct (complete (image w)); [by apply trigger_bystander|].
  repeat split. exists []. by rewrite app_nil_r.
Qed.

Lemma dispatch_bystander e w : bystander w (dispatch e w).
Proof.
  unfold dispatch. generalize (nativeListeners w) as ls. intros ls. revert w.
  induction ls as [|l ls IH]; intros w; simpl; [apply bystander_refl|].
  eapply bystander_trans; [|apply IH].
  case_bool_decide; [|apply bystander_refl].
  destruct l.2. by apply trigger_bystander.
Qed.

Lemma wf_bystander w w' : wf w → bystander w w' → wf w'.
Proof.
  intros [Ht Hc Hl] (Et & En & Ec & Er & l & El & Hf).
  split; rewrite ?Et, ?En, ?Ec; auto.
  intros a c Ha Hab. rewrite El in Ha. apply elem_of_app in Ha as [Ha|Ha]; [eauto|].
  rewrite Forall_forall in Hf. by rewrite (Hf a Ha c) in Hab.
Qed.

Lemma view_bystander c w w' : bystander w w' → view c w' = view c w.
Proof.
  intros (Et & En & Ec & Er & l & El & Hf). unfold view.
  by rewrite Et, Ec, Er, El, history_app, (history_anonymous c l Hf), app_nil_r.
Qed.


Lemma applyEffect_cases effectName target cb w :
  applyEffect effectName target cb w = (w, Returned) ∨
  applyEffect effectName target cb w = (w, ThrewTypeError) ∨
  ∃ options,
    effects (settings (this w)) !! effectName = Some (EntryObject options) ∧
    target ≠ TUndefined ∧ target ≠ TNull ∧
    applyEffect effectName target cb w =
      (set_requests (insert (next_timer w)
                       (mkRequest (first_of target) effectName (default [] options)))
         (set_calls (insert (next_timer w) (mkActivation false cb))
            (set_next_timer (S (next_timer w))
               (set_timers (insert (next_timer w)
                              (EffectTimeout (next_timer w),
                               effectTimeout (settings (this w)))) w))),
       Returned).
Proof.
  unfold applyEffect.
  destruct (effects (settings (this w)) !! effectName) as [[|options]|]; auto;
    destruct target; auto; right; right; exists options; by repeat split.
Qed.

Lemma wf_step e w w' : wf w → step e w = Some w' → wf w'.
Proof.
  intros Hwf Hstep. destruct e as [name target cb|t|c r|e|img]; simpl in Hstep.
  - injection Hstep as <-.
    destruct (applyEffect_cases name target cb w) as [->|[->|(options & _ & _ & _ & ->)]];
      [done..|].
    destruct Hwf as [Ht Hc Hl]. split; simpl.
    + intros t task d. rewrite lookup_insert. case_decide as E.
      * intros [= <- <-]. subst t. split; [lia|done].
      * intros Hlk. destruct (Ht _ _ _ Hlk) as [? Htask]. split; [lia|].
        destruct task; [|done]. by rewrite lookup_insert_ne.
    + intros c. rewrite lookup_insert. case_decide as E; [subst; lia|].
      intros Hs. specialize (Hc _ Hs). lia.
    + intros a c Ha Hab. specialize (Hl _ _ Ha Hab). lia.
  - destruct (timers w !! t) as [[task d]|] eqn:Hlk; [|done]. injection Hstep as <-.
    assert (wf (set_timers (delete t) w)) as Hwf1.
    { destruct Hwf as [Ht Hc Hl]. split; simpl; auto.
      intros t' task' d'. rewrite lookup_delete. case_decide; [done|]. apply Ht. }
    destruct task as [|c]; simpl.
    + eapply wf_bystander; [exact Hwf1|apply checkImageLoaded_bystander].
    + destruct (wf_timers _ Hwf _ _ _ Hlk) as [Hlt ->].
      destruct Hwf1 as [Ht Hc Hl]. split; simpl in *.
      * intros t' task' d' Hlk'. destruct (Ht _ _ _ Hlk') as [? Htask]. split; [done|].
        destruct task'; [|done]. rewrite lookup_alter. case_decide; [subst; by rewrite Htask|done].
      * intros c. rewrite lookup_alter. case_decide; [subst c|apply Hc].
        rewrite fmap_is_Some. apply Hc.
      * intros a c Ha Hab. apply elem_of_app in Ha as [Ha|Ha]; [eauto|].
        apply elem_of_cons in Ha as [->|Ha].
        -- simpl in Hab. apply Nat.eqb_eq in Hab. by subst.
        -- apply list_elem_of_fmap in Ha as (h & -> & _). done.
  - destruct (requests w !! c) as [rq|] eqn:Hlk; [|done]. injection Hstep as <-.
    assert (wf (set_requests (delete c) w)) as Hwf1.
    { destruct Hwf as [Ht Hc Hl]. by split. }
    unfold on_complete; simpl.
    destruct (calls w !! c) as [a|] eqn:Hcall; [|done].
    destruct (callback a); try done. destruct (timedOut a); [done|].
    destruct Hwf1 as [Ht Hc Hl]. split; simpl in *; auto.
    + intros t' task' d'. rewrite lookup_delete. case_decide; [done|]. apply Ht.
    + intros a' c' Ha Hab. apply elem_of_app in Ha as [Ha|Ha]; [eauto|].
      apply list_elem_of_singleton in Ha as ->. simpl in Hab.
      apply Nat.eqb_eq in Hab as <-. apply Hc. by rewrite Hcall.
  - injection Hstep as <-. eapply wf_bystander; [exact Hwf|apply dispatch_bystander].
  - injection Hstep as <-. destruct Hwf as [Ht Hc Hl]. by split.
Qed.


Lemma view_Some c w s :
  view c w = Some s ↔
  ∃ a, calls w !! c = Some a ∧
       s = mkCallState (present (timers w !! c)) (present (requests w !! c)) a
                       (history c (log w)).
Proof.
  unfold view. destruct (calls w !! c) as [a|]; simpl.
  - split; [intros [= <-]; eauto|intros (a' & [= <-] & ->); done].
  - split; [done|intros (a' & [=] & _)].
Qed.

Lemma view_step c e w w' s :
  wf w → view c w = Some s → step e w = Some w' →
  ∃ s', call_step c e s = Some s' ∧ view c w' = Some s'.
Proof.
  intros Hwf Hview Hstep.
  apply view_Some in Hview as (a & Hcall & ->).
  assert (c < next_timer w)%nat as Hlt by (apply (wf_calls _ Hwf); by rewrite Hcall).
  destruct e as [name target cb|t|c' r|e|img]; simpl in Hstep.
  - injection Hstep as <-. eexists; split; [reflexivity|].
    apply view_Some. exists a.
    destruct (applyEffect_cases name target cb w) as [->|[->|(options & _ & _ & _ & ->)]];
      [done..|].
    simpl. rewrite !lookup_insert_ne by lia. done.
  - destruct (timers w !! t) as [[task d]|] eqn:Hlk; [|done]. injection Hstep as <-.
    unfold call_step; simpl. destruct (Nat.eqb_spec t c) as [->|Hne].
    + rewrite Hlk; simpl. eexists; split; [reflexivity|].
      destruct (wf_timers _ Hwf _ _ _ Hlk) as [_ Htask].
      destruct task; [congruence|]. subst call. simpl.
      apply view_Some. eexists. split.
      * unfold on_timeout; simpl. by rewrite lookup_alter_eq, Hcall.
      * unfold on_timeout. rewrite history_trigger. simpl.
        rewrite lookup_delete_eq. unfold history at 2; simpl. by rewrite Nat.eqb_refl.
    + eexists; split; [reflexivity|]. apply view_Some. exists a.
      destruct (wf_timers _ Hwf _ _ _ Hlk) as [_ Htask].
      destruct task as [|c0]; cbn [run_task].
      * destruct (checkImageLoaded_bystander (set_timers (delete t) w))
          as (Et & _ & Ec & Er & l & El & Hf).
        rewrite Et, Ec, Er, El, history_app, (history_anonymous c l Hf), app_nil_r. simpl.
        by rewrite lookup_delete_ne.
      * subst c0. unfold on_timeout. rewrite history_trigger; simpl.
        rewrite lookup_alter_ne, lookup_delete_ne by done. split; [done|].
        unfold history at 2; simpl. destruct (Nat.eqb_spec t c); [done|]. by rewrite app_nil_r.
  - destruct (requests w !! c') as [rq|] eqn:Hlk; [|done]. injection Hstep as <-.
    unfold call_step; simpl. destruct (Nat.eqb_spec c' c) as [->|Hne].
    + rewrite Hlk; simpl. unfold on_complete; simpl. rewrite Hcall.
      destruct (callback a) eqn:Hcb;
        try (eexists; split; [reflexivity|]; apply view_Some; exists a; simpl;
             by rewrite lookup_delete_eq).
      destruct (timedOut a) eqn:Hto.
      * eexists; split; [reflexivity|]. apply view_Some; exists a; simpl.
        by rewrite lookup_delete_eq.
      * eexists; split; [reflexivity|]. apply view_Some; exists a; simpl.
        rewrite !lookup_delete_eq, history_app. split; [done|]. simpl.
        unfold history at 2; simpl. by rewrite Nat.eqb_refl.
    + eexists; split; [reflexivity|]. apply view_Some. exists a.
      unfold on_complete; simpl.
      assert (∀ w0 : World, calls w0 = calls w → timers w0 = timers w →
                requests w0 = delete c' (requests w) → log w0 = log w →
                calls w0 !! c = Some a ∧
                mkCallState (present (timers w !! c)) (present (requests w !! c)) a
                  (history c (log w)) =
                mkCallState (present (timers w0 !! c)) (present (requests w0 !! c)) a
                  (history c (log w0))) as Hsame.
      { intros w0 -> -> -> ->. by rewrite lookup_delete_ne. }
      destruct (calls w !! c') as [a'|]; [|by apply Hsame].
      destruct (callback a'); try (by apply Hsame). destruct (timedOut a'); [by apply Hsame|].
      simpl. rewrite lookup_delete_ne, lookup_delete_ne, history_app by done.
      split; [done|]. unfold history at 3; simpl.
      destruct (Nat.eqb_spec c' c); [done|]. by rewrite app_nil_r.
  - injection Hstep as <-. eexists; split; [reflexivity|].
    rewrite (view_bystander c _ _ (dispatch_bystander e w)).
    apply view_Some; eauto.
  - injection Hstep as <-. eexists; split; [reflexivity|]. apply view_Some; eauto.
Qed.


Lemma wf_run es w w' : wf w → run es w = Some w' → wf w'.
Proof.
  revert w. induction es as [|e es IH]; intros w Hwf Hrun; simpl in Hrun.
  - by injection Hrun as <-.
  - destruct (step e w) as [w1|] eqn:Hstep; [|done]. simpl in Hrun.
    eapply IH; [|exact Hrun]. by eapply wf_step.
Qed.

Lemma view_run c es w w' s :
  wf w → view c w = Some s → run es w = Some w' →
  ∃ s', call_run c es s = Some s' ∧ view c w' = Some s'.
Proof.
  revert w s. induction es as [|e es IH]; intros w s Hwf Hview Hrun; simpl in Hrun.
  - injection Hrun as <-. by exists s.
  - destruct (step e w) as [w1|] eqn:Hstep; [|done]. simpl in Hrun.
    destruct (view_step c e w w1 s Hwf Hview Hstep) as (s1 & Hs1 & Hview1).
    destruct (IH w1 s1 (wf_step _ _ _ Hwf Hstep) Hview1 Hrun) as (s' & Hs' & Hview').
    exists s'. split; [|done]. simpl. by rewrite Hs1.
Qed.

Lemma call_run_events_of c es s : call_run c es s = call_run c (events_of c es) s.
Proof.
  revert s. induction es as [|e es IH]; intros s; [done|].
  unfold events_of; simpl. destruct (concerns c e) eqn:E; simpl.
  - destruct (call_step c e s); simpl; [apply IH|done].
  - unfold call_step. rewrite E. simpl. apply IH.
Qed.

Lemma concerns_inv c e :
  concerns c e = true → e = EvTimer c ∨ ∃ r, e = EvEngineDone c r.
Proof.
  destruct e as [| t | c' r | |]; simpl; try done; intros ->%Nat.eqb_eq; eauto.
Qed.

Lemma events_of_concern c es : Forall (fun e => concerns c e = true) (events_of c es).
Proof.
  apply Forall_forall. intros e He. apply list_elem_of_In, List.filter_In in He. tauto.
Qed.

Lemma call_step_timer c s :
  call_step c (EvTimer c) s =
  if timer_pending s
  then Some (mkCallState false (in_flight s) (mkActivation true (callback (env s)))
               (past s ++ [Fired ImageEffectError (FromTimeout c)]))
  else None.
Proof. unfold call_step; simpl. by rewrite Nat.eqb_refl. Qed.

Lemma call_step_done c r s :
  call_step c (EvEngineDone c r) s =
  if in_flight s
  then match callback (env s) with
       | JFunction f =>
           if timedOut (env s)
           then Some (mkCallState (timer_pending s) false (env s) (past s))
           else Some (mkCallState false false (env s) (past s ++ [CallbackRun c f r]))
       | _ => Some (mkCallState (timer_pending s) false (env s) (past s))
       end
  else None.
Proof. unfold call_step; simpl. by rewrite Nat.eqb_refl. Qed.

Lemma call_run_settled c es s s' :
  timer_pending s = false → in_flight s = false →
  Forall (fun e => concerns c e = true) es →
  call_run c es s = Some s' → es = [] ∧ s' = s.
Proof.
  intros Ht Hf Hes Hrun. destruct es as [|e es]; [by injection Hrun as <-|].
  apply Forall_cons in Hes as [[->|(r & ->)]%concerns_inv _]; simpl in Hrun.
  - by rewrite call_step_timer, Ht in Hrun.
  - by rewrite call_step_done, Hf in Hrun.
Qed.

Lemma race_outcomes c cb es s' :
  Forall (fun e => concerns c e = true) es →
  call_run c es (racing cb) = Some s' →
  outcome c cb es s'.
Proof.
  intros Hes Hrun.
  destruct es as [|e1 es]; [injection Hrun as <-; constructor|].
  apply Forall_cons in Hes as [[->|(r1 & ->)]%concerns_inv Hes]; simpl in Hrun.
  - rewrite call_step_timer in Hrun; simpl in Hrun.
    destruct es as [|e2 es]; [injection Hrun as <-; constructor|].
    apply Forall_cons in Hes as [[->|(r2 & ->)]%concerns_inv Hes]; simpl in Hrun.
    + by rewrite call_step_timer in Hrun.
    + rewrite call_step_done in Hrun; simpl in Hrun.
      assert (es = [] ∧ s' = mkCallState false false (mkActivation true cb)
                [Fired ImageEffectError (FromTimeout c)]) as [-> ->].
      { destruct cb; simpl in Hrun; by apply (call_run_settled c) in Hrun. }
      constructor.
  - rewrite call_step_done in Hrun; simpl in Hrun.
    destruct (is_function cb) eqn:Hfn.
    + destruct cb; try discriminate Hfn. simpl in Hrun.
      apply (call_run_settled c) in Hrun as [-> ->]; [|done..]. by constructor.
    + assert (call_run c es (mkCallState true false (mkActivation false cb) []) = Some s')
        as Hrun' by (destruct cb; try discriminate Hfn; exact Hrun).
      clear Hrun. destruct es as [|e2 es]; [injection Hrun' as <-; by constructor|].
      apply Forall_cons in Hes as [[->|(r2 & ->)]%concerns_inv Hes]; simpl in Hrun'.
      * rewrite call_step_timer in Hrun'; simpl in Hrun'.
        apply (call_run_settled c) in Hrun' as [-> ->]; [|done..]. by constructor.
      * by rewrite call_step_done in Hrun'.
Qed.


Lemma addHandler_shape n v w : ∃ hs, _addHandler n v w = set_handlers (fun _ => hs) w.
Proof.
  destruct v; simpl; try (exists (handlers w); by destruct w).
  by exists (handlers w ++ [(n, f)]).
Qed.

Lemma boot_shape this d img v1 v2 v3 :
  ∃ hs,
    (setTimeout (fun _ => DeferredCheck) JUndefined
       (_addHandler ImageEffectError v3
          (_addHandler ImageLoadError v2
             (_addHandler ImageLoaded v1 (mkWorld this d img [] [] ∅ 0 ∅ ∅ []))))).1 =
    mkWorld this d img hs [] (<[0%nat := (DeferredCheck, JUndefined)]> ∅) 1 ∅ ∅ [].
Proof.
  destruct (addHandler_shape ImageLoaded v1 (mkWorld this d img [] [] ∅ 0 ∅ ∅ []))
    as (hs1 & ->).
  unfold set_handlers at 1; cbn [Plugin.this doc image handlers nativeListeners timers
                                  next_timer calls requests log].
  destruct (addHandler_shape ImageLoadError v2 (mkWorld this d img hs1 [] ∅ 0 ∅ ∅ []))
    as (hs2 & ->).
  unfold set_handlers at 1; cbn [Plugin.this doc image handlers nativeListeners timers
                                  next_timer calls requests log].
  destruct (addHandler_shape ImageEffectError v3 (mkWorld this d img hs2 [] ∅ 0 ∅ ∅ []))
    as (hs3 & ->).
  exists hs3. reflexivity.
Qed.

(** The world a constructor leaves: one pending timer, the deferred check,
    and nothing else under way. *)
Lemma init_shape host hostId s d img :
  ∃ this d' hs,
    init host hostId s d img =
    mkWorld this d' img hs [] (<[0%nat := (DeferredCheck, JUndefined)]> ∅) 1 ∅ ∅ [].
Proof.
  unfold init. cbv zeta.
  match goal with
  | |- context [mkWorld ?th ?d' img [] [] ∅ 0 ∅ ∅ []] =>
      destruct (boot_shape th d' img (onLoad s) (onLoadError s) (onEffectError s))
        as (hs & E);
      exists th, d', hs; exact E
  end.
Qed.

Lemma construct_shape host options now d img :
  ∃ this d' hs,
    construct host options now d img =
    mkWorld this d' img hs [] (<[0%nat := (DeferredCheck, JUndefined)]> ∅) 1 ∅ ∅ [].
Proof. unfold construct. apply init_shape. Qed.

Lemma wf_construct host options now d img : wf (construct host options now d img).
Proof.
  destruct (construct_shape host options now d img) as (th & d' & hs & ->).
  split; simpl.
  - intros t task dl. rewrite lookup_insert. case_decide as E.
    + intros [= <- <-]. subst t. split; [lia|done].
    + by rewrite lookup_empty.
  - intros c [a Ha]. by rewrite lookup_empty in Ha.
  - intros a c Ha. by apply elem_of_nil in Ha.
Qed.

Lemma wf_reachable w : reachable w → wf w.
Proof.
  intros (host & options & now & d & img & es & Hrun).
  eapply wf_run; [apply wf_construct|exact Hrun].
Qed.

Lemma history_nil c l : (∀ a, a ∈ l → about c a = false) → history c l = [].
Proof.
  induction l as [|a l IH]; intros H; [done|].
  unfold history in *; simpl. rewrite (H a) by left. apply IH.
  intros a' Ha'. apply H. by right.
Qed.

Lemma history_fresh w c : wf w → (next_timer w ≤ c)%nat → history c (log w) = [].
Proof.
  intros Hwf Hc. apply history_nil. intros a Ha.
  destruct (about c a) eqn:E; [|done].
  pose proof (wf_log _ Hwf _ _ Ha E). lia.
Qed.

(** A call that passes the guard and returns has started the race. *)
Lemma applyEffect_starts w effectName target cb w1 :
  wf w →
  is_Some (effects (settings (this w)) !! effectName) → target ≠ TUndefined →
  applyEffect effectName target cb w = (w1, Returned) →
  wf w1 ∧ view (next_timer w) w1 = Some (racing cb) ∧
  timers w1 !! next_timer w =
    Some (EffectTimeout (next_timer w), effectTimeout (settings (this w))) ∧
  is_Some (requests w1 !! next_timer w) ∧ log w1 = log w.
Proof.
  intros Hwf [entry Hentry] Htarget Happly.
  assert (wf w1) as Hwf1.
  { apply (wf_step (EvApplyEffect effectName target cb) w); [done|].
    simpl. by rewrite Happly. }
  split; [done|].
  unfold applyEffect in Happly. rewrite Hentry in Happly.
  destruct entry as [|options]; destruct target; try done;
    injection Happly as <-; simpl;
    (split; [apply view_Some; eexists; simpl; split;
               [by rewrite lookup_insert_eq|];
             by rewrite !lookup_insert_eq, (history_fresh w) by (done || lia)|]);
    by rewrite !lookup_insert_eq.
Qed.

Lemma race_of_call w effectName target cb w1 es w' :
  wf w →
  is_Some (effects (settings (this w)) !! effectName) → target ≠ TUndefined →
  applyEffect effectName target cb w = (w1, Returned) →
  run es w1 = Some w' →
  ∃ s', outcome (next_timer w) cb (events_of (next_timer w) es) s' ∧
        view (next_timer w) w' = Some s' ∧ wf w'.
Proof.
  intros Hwf Hname Htarget Happly Hrun.
  destruct (applyEffect_starts _ _ _ _ _ Hwf Hname Htarget Happly)
    as (Hwf1 & Hview & _).
  destruct (view_run _ _ _ _ _ Hwf1 Hview Hrun) as (s' & Hcall & Hview').
  exists s'. split; [|split; [done|by eapply wf_run]].
  rewrite call_run_events_of in Hcall.
  by apply race_outcomes; [apply events_of_concern|].
Qed.




Lemma view_history c w s : view c w = Some s → history c (log w) = past s.
Proof. intros (a & _ & ->)%view_Some. done. Qed.

Lemma view_timer_pending c w s :
  wf w → view c w = Some s →
  if timer_pending s then ∃ d, timers w !! c = Some (EffectTimeout c, d)
  else timers w !! c = None.
Proof.
  intros Hwf (a & Hcall & ->)%view_Some. simpl.
  destruct (timers w !! c) as [[task d]|] eqn:Hlk; simpl; [|done].
  destruct (wf_timers _ Hwf _ _ _ Hlk) as [_ Htask].
  destruct task; [congruence|]. subst. eauto.
Qed.

Lemma effect_errors_timeout c :
  effect_errors c [Fired ImageEffectError (FromTimeout c)] = 1%nat.
Proof. unfold effect_errors; simpl. by rewrite bool_decide_true. Qed.




(** Claim C10.  When the callback is not a function, an engine
    completion that comes first runs no callback and leaves the timer
    pending; the timer can then fire, and when it does the timeout closure
    raises ["image:effectError"] although the effect had completed. *)
Theorem applyEffect_without_callback w effectName target cb w1 es w' r rest :
  reachable w →
  is_Some (effects (settings (this w)) !! effectName) → target ≠ TUndefined →
  is_function cb = false →
  applyEffect effectName target cb w = (w1, Returned) →
  run es w1 = Some w' →
  events_of (next_timer w) es = EvEngineDone (next_timer w) r :: rest →
  callback_results (next_timer w) (log w') = [] ∧
  (rest = [] →
     (∃ d, timers w' !! next_timer w = Some (EffectTimeout (next_timer w), d)) ∧
     effect_errors (next_timer w) (log w') = 0%nat ∧
     ∃ w'', step (EvTimer (next_timer w)) w' = Some w'' ∧
            effect_errors (next_timer w) (log w'') = 1%nat ∧
            callback_results (next_timer w) (log w'') = []) ∧
  (rest ≠ [] →
     rest = [EvTimer (next_timer w)] ∧ effect_errors (next_timer w) (log w') = 1%nat).
Proof.
  intros Hreach Hname Htarget Hfn Happly Hrun Hes.
  destruct (race_of_call _ _ _ _ _ _ _ (wf_reachable _ Hreach) Hname Htarget Happly Hrun)
    as (s' & Hout & Hview & Hwf').
  set (c := next_timer w) in *.
  pose proof (view_history _ _ _ Hview) as Hpast.
  pose proof (view_timer_pending _ _ _ Hwf' Hview) as Htimer.
  rewrite <- (effect_errors_history c (log w')), <- (callback_results_history c (log w')).
  rewrite Hpast, Hes in *.
  inversion Hout; subst; try (by vm_compute in Hfn); cbn [past timer_pending] in *.
  - split; [done|]. split; [|done]. intros _. split; [done|]. split; [done|].
    destruct Htimer as (d & Hd).
    destruct (step (EvTimer c) w') as [w''|] eqn:Hstep; [|by simpl in Hstep; rewrite Hd in Hstep].
    exists w''. split; [done|].
    destruct (view_step c _ _ _ _ Hwf' Hview Hstep) as (s'' & Hs'' & Hview'').
    rewrite call_step_timer in Hs''. simpl in Hs''. injection Hs'' as <-.
    rewrite <- (effect_errors_history c (log w'')), <- (callback_results_history c (log w'')).
    rewrite (view_history _ _ _ Hview''). simpl. by rewrite effect_errors_timeout.
  - split; [done|]. split; [done|]. intros _. split; [done|].
    by rewrite effect_errors_timeout.
Qed.


End RaceFacts.

Section RaceWitnesses.
Import Js Dom Plugin Race Fixture.

Lemma world_reachable : reachable world.
Proof. exists 1%nat, options, 1234%N, page, loading, []. reflexivity. Qed.

Lemma blur_configured : is_Some (effects (settings (this world)) !! "blur").
Proof. exists (EntryObject None). vm_compute. reflexivity. Qed.




Lemma applyEffect_without_callback_witness :
  let es := [EvEngineDone 1%nat 42%nat; EvNative NativeError] in
  let w' := after_events es (applied JUndefined) in
  callback_results (next_timer world) (log w') = [] ∧
  (@nil Event = [] →
     (∃ d, timers w' !! next_timer world = Some (EffectTimeout (next_timer world), d)) ∧
     effect_errors (next_timer world) (log w') = 0%nat ∧
     ∃ w'', step (EvTimer (next_timer world)) w' = Some w'' ∧
            effect_errors (next_timer world) (log w'') = 1%nat ∧
            callback_results (next_timer world) (log w'') = []) ∧
  (@nil Event ≠ [] →
     [] = [EvTimer (next_timer world)] ∧ effect_errors (next_timer world) (log w') = 1%nat).
Proof.
  intros es w'.
  apply (applyEffect_without_callback world "blur" (TElement 1) JUndefined
           (applied JUndefined) es w' 42%nat []).
  - apply world_reachable.
  - apply blur_configured.
  - discriminate.
  - reflexivity.
  - vm_compute. reflexivity.
  - vm_compute. reflexivity.
  - vm_compute. reflexivity.
Defined.


End RaceWitnesses.

(* ===================================================================== *)
(** * Facts about the deferred load check *)
(* ===================================================================== *)

Section LoadFacts.
Import Js Dom Plugin Race Load.

Lemma raised_handler_runs n n' (hs : list (Notification * nat)) :
  raised n (map (fun h => HandlerRun n' h.2) hs) = 0%nat.
Proof. induction hs as [|h hs IH]; [done|exact IH]. Qed.

Lemma raised_trigger n n' o w :
  raised n (log (trigger n' o w)) =
  (raised n (log w) + if bool_decide (n' = n) then 1 else 0)%nat.
Proof.
  unfold trigger; simpl. rewrite raised_app. f_equal.
  match goal with |- raised n (?a :: ?l) = _ => change (a :: l) with ([a] ++ l) end.
  rewrite raised_app, raised_handler_runs, Nat.add_0_r.
  unfold raised; simpl. by case_bool_decide.
Qed.

Lemma dispatch_none e w :
  nativeListeners w = [] → dispatch e w = w.
Proof. unfold dispatch. by intros ->. Qed.

Lemma awaiting_construct host options now d img :
  awaiting_check (construct host options now d img).
Proof.
  destruct (construct_shape host options now d img) as (th & d' & hs & ->).
  split; simpl; try done; try lia.
  - exists JUndefined. by rewrite lookup_insert_eq.
  - intros t dl. rewrite lookup_insert. case_decide; [done|]. by rewrite lookup_empty.
Qed.


Lemma calm_refl w : calm w w.
Proof. by repeat split. Qed.

Lemma calm_trans w1 w2 w3 : calm w1 w2 → calm w2 w3 → calm w1 w3.
Proof.
  intros (? & ? & ? & ? & ?) (? & ? & ? & ? & ?). repeat split; try congruence. lia.
Qed.

Lemma trigger_calm n o w : n ≠ ImageLoadError → calm w (trigger n o w).
Proof.
  intros Hn. repeat split; rewrite raised_trigger.
  - rewrite bool_decide_false by done. lia.
  - lia.
Qed.

Lemma dispatch_calm e w : calm w (dispatch e w).
Proof.
  unfold dispatch. generalize (nativeListeners w) as ls. intros ls. revert w.
  induction ls as [|l ls IH]; intros w; simpl; [apply calm_refl|].
  eapply calm_trans; [|apply IH].
  case_bool_decide; [|apply calm_refl].
  destruct l.2. by apply trigger_calm.
Qed.

(** What a step other than the deferred check does to the load
    notifications. *)
Lemma step_keeps_load e w w' :
  (∀ t d, e = EvTimer t → timers w !! t ≠ Some (DeferredCheck, d)) →
  step e w = Some w' →
  nativeListeners w' = nativeListeners w ∧
  raised ImageLoadError (log w') = raised ImageLoadError (log w) ∧
  (nativeListeners w = [] → raised ImageLoaded (log w') = raised ImageLoaded (log w)).
Proof.
  intros Hcheck Hstep. destruct e as [name target cb|t|c r|e|img]; simpl in Hstep.
  - injection Hstep as <-.
    by destruct (applyEffect_cases name target cb w) as [->|[->|(options & _ & _ & _ & ->)]].
  - destruct (timers w !! t) as [[task d]|] eqn:Hlk; [|done]. injection Hstep as <-.
    destruct task as [|c]; [by destruct (Hcheck t d eq_refl)|].
    cbn [run_task]. unfold on_timeout. rewrite !raised_trigger.
    rewrite !bool_decide_false by done. simpl. repeat split; try done; lia.
  - destruct (requests w !! c) as [rq|]; [|done]. injection Hstep as <-.
    unfold on_complete; simpl. destruct (calls w !! c) as [a|]; [|done].
    destruct (callback a); try done. destruct (timedOut a); [done|]. simpl.
    rewrite !raised_app. unfold raised at 2 4; simpl. repeat split; try done; lia.
  - injection Hstep as <-. destruct (dispatch_calm e w) as (_ & _ & Hl & He & _).
    repeat split; [done..|]. intros Hnone. by rewrite dispatch_none.
  - by injection Hstep as <-.
Qed.


(** A pending timer after a step was pending before it, or is the
    timeout of the activation the step started. *)
Lemma step_timers_from e w w' t task d :
  step e w = Some w' → timers w' !! t = Some (task, d) →
  timers w !! t = Some (task, d) ∨ (t = next_timer w ∧ task = EffectTimeout t).
Proof.
  intros Hstep. destruct e as [name target cb|t0|c r|e|img]; simpl in Hstep.
  - injection Hstep as <-.
    destruct (applyEffect_cases name target cb w) as [->|[->|(options & _ & _ & _ & ->)]];
      [simpl; auto..|].
    simpl. rewrite lookup_insert. case_decide; [|by left].
    intros [= <- <-]. right. by subst.
  - destruct (timers w !! t0) as [[task0 d0]|] eqn:Hlk; [|done]. injection Hstep as <-.
    assert (timers (run_task task0 (set_timers (delete t0) w)) = delete t0 (timers w)) as ->.
    { destruct task0; [|done]. by destruct (checkImageLoaded_bystander (set_timers (delete t0) w)). }
    rewrite lookup_delete. case_decide; [done|by left].
  - destruct (requests w !! c) as [rq|]; [|done]. injection Hstep as <-.
    unfold on_complete; simpl. destruct (calls w !! c) as [a|]; [|by left].
    destruct (callback a); try (by left). destruct (timedOut a); [by left|]. simpl.
    rewrite lookup_delete. case_decide; [done|by left].
  - injection Hstep as <-. destruct (dispatch_calm e w) as (-> & _). by left.
  - injection Hstep as <-. by left.
Qed.

Lemma step_next_timer e w w' : step e w = Some w' → (next_timer w ≤ next_timer w')%nat.
Proof.
  intros Hstep. destruct e as [name target cb|t0|c r|e|img]; simpl in Hstep.
  - injection Hstep as <-.
    destruct (applyEffect_cases name target cb w) as [->|[->|(options & _ & _ & _ & ->)]];
      simpl; lia.
  - destruct (timers w !! t0) as [[task0 d0]|] eqn:Hlk; [|done]. injection Hstep as <-.
    destruct task0; [|simpl; lia]. cbn [run_task].
    destruct (checkImageLoaded_bystander (set_timers (delete t0) w)) as (_ & -> & _).
    simpl; lia.
  - destruct (requests w !! c) as [rq|]; [|done]. injection Hstep as <-.
    unfold on_complete; simpl. destruct (calls w !! c) as [a|]; [|simpl; lia].
    destruct (callback a); try (simpl; lia). destruct (timedOut a); simpl; lia.
  - injection Hstep as <-. destruct (dispatch_calm e w) as (_ & -> & _). lia.
  - injection Hstep as <-. simpl; lia.
Qed.

(** The deferred check stays pending until the browser runs it. *)
Lemma step_check_kept e w w' t d :
  wf w → step e w = Some w' → timers w !! t = Some (DeferredCheck, d) →
  e ≠ EvTimer t → timers w' !! t = Some (DeferredCheck, d).
Proof.
  intros Hwf Hstep Hlk Hne. destruct (wf_timers _ Hwf _ _ _ Hlk) as [Hlt Hnocall].
  destruct e as [name target cb|t0|c r|e|img]; simpl in Hstep.
  - injection Hstep as <-.
    destruct (applyEffect_cases name target cb w) as [->|[->|(options & _ & _ & _ & ->)]];
      [done..|].
    simpl. rewrite lookup_insert_ne by lia. done.
  - destruct (timers w !! t0) as [[task0 d0]|] eqn:Hlk0; [|done]. injection Hstep as <-.
    assert (timers (run_task task0 (set_timers (delete t0) w)) = delete t0 (timers w)) as ->.
    { destruct task0; [|done]. by destruct (checkImageLoaded_bystander (set_timers (delete t0) w)). }
    rewrite lookup_delete_ne; [done|congruence].
  - destruct (requests w !! c) as [rq|]; [|done]. injection Hstep as <-.
    unfold on_complete; simpl. destruct (calls w !! c) as [a|] eqn:Hcall; [|done].
    destruct (callback a); try done. destruct (timedOut a); [done|]. simpl.
    rewrite lookup_delete_ne; [done|congruence].
  - injection Hstep as <-. by destruct (dispatch_calm e w) as (-> & _).
  - by injection Hstep as <-.
Qed.

Lemma lifecycle_step e w w' : wf w → lifecycle w → step e w = Some w' → lifecycle w'.
Proof.
  intros Hwf [Haw|(Hnext & Hzero & Hdone)] Hstep.
  - destruct Haw as [[d0 Hcheck] Honly Hnext Hls Hl He].
    assert (e = EvTimer 0%nat ∨ e ≠ EvTimer 0%nat) as [->|Hne].
    { destruct e as [| [|t] | | |]; auto. }
    + right. pose proof (step_next_timer _ _ _ Hstep) as Hmono.
      simpl in Hstep. rewrite Hcheck in Hstep. injection Hstep as <-.
      cbn [run_task] in *.
      destruct (checkImageLoaded_bystander (set_timers (delete 0%nat) w)) as (Et & _).
      split; [lia|]. rewrite Et. simpl. split; [by rewrite lookup_delete_eq|].
      intros t d. rewrite Et; simpl. rewrite lookup_delete. case_decide; [done|].
      intros Hlk. apply Honly in Hlk. congruence.
    + left. destruct (step_keeps_load e w w') as (Hls' & He' & Hl'); [|done|].
      { intros t d -> Hlk. apply Honly in Hlk. congruence. }
      split.
      * exists d0. by eapply step_check_kept.
      * intros t d Hlk. destruct (step_timers_from _ _ _ _ _ _ Hstep Hlk) as [Hold|[_ [=]]].
        by eapply Honly.
      * pose proof (step_next_timer _ _ _ Hstep). lia.
      * congruence.
      * rewrite Hl' by done. done.
      * congruence.
  - right. pose proof (step_next_timer _ _ _ Hstep) as Hmono. split; [lia|]. split.
    + destruct (timers w' !! 0%nat) as [[task d]|] eqn:Hlk; [|done].
      destruct (step_timers_from _ _ _ _ _ _ Hstep Hlk) as [Hold|[Hz _]]; [congruence|lia].
    + intros t d Hlk. destruct (step_timers_from _ _ _ _ _ _ Hstep Hlk) as [Hold|[_ [=]]].
      by apply Hdone in Hold.
Qed.

Lemma lifecycle_run es w w' : wf w → lifecycle w → run es w = Some w' → lifecycle w'.
Proof.
  revert w. induction es as [|e es IH]; intros w Hwf Hlife Hrun; simpl in Hrun.
  - by injection Hrun as <-.
  - destruct (step e w) as [w1|] eqn:Hstep; [|done]. simpl in Hrun.
    eapply IH; [| |exact Hrun]; [by eapply wf_step|by eapply lifecycle_step].
Qed.

(** Once the check is done, the load-error count is final, and so is the
    loaded count unless a load listener was installed. *)
Lemma check_done_run es w w' :
  check_done w → run es w = Some w' →
  check_done w' ∧
  nativeListeners w' = nativeListeners w ∧
  raised ImageLoadError (log w') = raised ImageLoadError (log w) ∧
  (nativeListeners w = [] → raised ImageLoaded (log w') = raised ImageLoaded (log w)).
Proof.
  revert w. induction es as [|e es IH]; intros w Hdone Hrun; simpl in Hrun.
  - by injection Hrun as <-.
  - destruct (step e w) as [w1|] eqn:Hstep; [|done]. simpl in Hrun.
    destruct (step_keeps_load e w w1) as (Hls & He & Hl); [by intros t d _|done|].
    assert (check_done w1) as Hdone1.
    { intros t d Hlk. destruct (step_timers_from _ _ _ _ _ _ Hstep Hlk) as [Hold|[_ [=]]].
      by apply Hdone in Hold. }
    destruct (IH w1 Hdone1 Hrun) as (Hdone' & Hls' & He' & Hl').
    repeat split; [done|congruence|congruence|].
    intros Hnone. rewrite Hl' by congruence. by apply Hl.
Qed.


Lemma lifecycle_reachable_from host options now d img es w :
  run es (construct host options now d img) = Some w → wf w ∧ lifecycle w.
Proof.
  intros Hrun. split.
  - eapply wf_run; [apply wf_construct|exact Hrun].
  - eapply lifecycle_run; [apply wf_construct| |exact Hrun].
    left. apply awaiting_construct.
Qed.

(** The deferred check, when the browser runs it. *)
Lemma deferred_check_runs w es w' :
  wf w → lifecycle w → run (EvTimer 0%nat :: es) w = Some w' →
  awaiting_check w ∧
  check_done (_checkImageLoaded (set_timers (delete 0%nat) w)) ∧
  run es (_checkImageLoaded (set_timers (delete 0%nat) w)) = Some w'.
Proof.
  intros Hwf Hlife Hrun. simpl in Hrun.
  destruct (timers w !! 0%nat) as [[task d]|] eqn:Hlk; [|done]. simpl in Hrun.
  destruct Hlife as [Haw|(_ & Hnone & _)]; [|congruence].
  destruct (aw_timer _ Haw) as (d' & Hd'). rewrite Hlk in Hd'. injection Hd' as -> ->.
  split; [done|]. split; [|done].
  intros t d. destruct (checkImageLoaded_bystander (set_timers (delete 0%nat) w)) as (-> & _).
  simpl. rewrite lookup_delete. case_decide; [done|].
  intros Hlk'. apply (aw_only _ Haw) in Hlk'. congruence.
Qed.

(** Claim C4.  Whatever happened to a constructed instance before, when
    its deferred check runs on an image whose [complete] flag is set,
    exactly one load notification is ever raised: ["image:loadError"] and
    never ["image:loaded"] when the natural width is zero,
    ["image:loaded"] and never ["image:loadError"] when the natural width
    is known and not zero. *)
Theorem load_check_on_complete_image host options now d img pre post w1 w' :
  run pre (construct host options now d img) = Some w1 →
  complete (image w1) = true →
  run (EvTimer 0%nat :: post) w1 = Some w' →
  (raised ImageLoaded (log w') + raised ImageLoadError (log w') = 1)%nat ∧
  (naturalWidth (image w1) = Some 0 →
     raised ImageLoadError (log w') = 1%nat ∧ raised ImageLoaded (log w') = 0%nat) ∧
  (∀ n, naturalWidth (image w1) = Some n → n ≠ 0 →
     raised ImageLoaded (log w') = 1%nat ∧ raised ImageLoadError (log w') = 0%nat).
Proof.
  intros Hpre Hcomplete Hrun.
  destruct (lifecycle_reachable_from _ _ _ _ _ _ _ Hpre) as [Hwf Hlife].
  destruct (deferred_check_runs _ _ _ Hwf Hlife Hrun) as (Haw & Hdone & Hpost).
  destruct Haw as [_ _ _ Hls Hl He].
  destruct (check_done_run _ _ _ Hdone Hpost) as (_ & _ & He' & Hl').
  rewrite He'. revert Hl' He'. unfold _checkImageLoaded, _checkImageNotFound. simpl.
  rewrite Hcomplete. simpl.
  destruct (naturalWidth (image w1)) as [n|] eqn:Hn.
  - destruct (Z.eqb_spec n 0) as [->|Hne]; intros Hl' He';
      rewrite Hl' by done; rewrite !raised_trigger; simpl; rewrite Hl, He; simpl.
    + split; [done|]. split; [done|]. by intros n' [= <-].
    + split; [done|]. split; [by intros [= ->]|]. done.
  - intros Hl' He'. rewrite Hl' by done. rewrite !raised_trigger; simpl. rewrite Hl, He.
    split; [done|]. split; [done|]. done.
Qed.

(** Claim C8.  When the deferred check runs on an image whose [complete]
    flag is not set, ["image:loadError"] is never raised, whatever follows
    (a native error event included), and the only listener the plugin
    holds for native events is the one for the load event. *)
Theorem load_check_on_incomplete_image host options now d img pre post w1 w' :
  run pre (construct host options now d img) = Some w1 →
  complete (image w1) = false →
  run (EvTimer 0%nat :: post) w1 = Some w' →
  raised ImageLoadError (log w') = 0%nat ∧
  nativeListeners w' = [(NativeLoad, TriggerLoaded)].
Proof.
  intros Hpre Hcomplete Hrun.
  destruct (lifecycle_reachable_from _ _ _ _ _ _ _ Hpre) as [Hwf Hlife].
  destruct (deferred_check_runs _ _ _ Hwf Hlife Hrun) as (Haw & Hdone & Hpost).
  destruct Haw as [_ _ _ Hls Hl He].
  destruct (check_done_run _ _ _ Hdone Hpost) as (_ & Hls' & He' & _).
  rewrite He', Hls'. unfold _checkImageLoaded, _checkImageNotFound. simpl.
  rewrite Hcomplete. simpl. by rewrite Hls.
Qed.

End LoadFacts.

Section LoadWitnesses.
Import Js Dom Plugin Race Load Fixture.

Lemma load_check_on_complete_image_witness :
  let pre := [EvApplyEffect "blur" (TElement 1) (JFunction 3); EvImage (mkImageState true (Some 0))] in
  let post := [EvNative NativeLoad; EvTimer 1%nat] in
  let w1 := after_events pre world in
  let w' := after_events (EvTimer 0%nat :: post) w1 in
  (raised ImageLoaded (log w') + raised ImageLoadError (log w') = 1)%nat ∧
  (naturalWidth (image w1) = Some 0 →
     raised ImageLoadError (log w') = 1%nat ∧ raised ImageLoaded (log w') = 0%nat) ∧
  (∀ n, naturalWidth (image w1) = Some n → n ≠ 0 →
     raised ImageLoaded (log w') = 1%nat ∧ raised ImageLoadError (log w') = 0%nat).
Proof.
  intros pre post w1 w'.
  apply (load_check_on_complete_image 1%nat options 1234%N page loading pre post w1 w').
  - vm_compute. reflexivity.
  - vm_compute. reflexivity.
  - vm_compute. reflexivity.
Defined.

Lemma load_check_on_incomplete_image_witness :
  let post := [EvImage (mkImageState true (Some 0)); EvNative NativeError] in
  let w' := after_events (EvTimer 0%nat :: post) world in
  raised ImageLoadError (log w') = 0%nat ∧
  nativeListeners w' = [(NativeLoad, TriggerLoaded)].
Proof.
  intros post w'.
  apply (load_check_on_incomplete_image 1%nat options 1234%N page loading [] post world w').
  - reflexivity.
  - vm_compute. reflexivity.
  - vm_compute. reflexivity.
Defined.

End LoadWitnesses.

(* ===================================================================== *)
(** * Facts about the document operations and the configured dimensions *)
(* ===================================================================== *)

Section DomFacts.
Import Js Dom Plugin.

(** Induction on element trees: the property of an element may use the
    property of each of its children. *)
Lemma Node_ind' (P : Node → Prop) :
  (∀ h t i a c ks, Forall P ks → P (Element h t i a c ks)) → ∀ n, P n.
Proof.
  intros Hstep. fix IH 1. intros [h t i a c ks]. apply Hstep.
  induction ks as [|k ks IHks]; constructor; [apply IH|exact IHks].
Qed.

Lemma subtree_unfold n : subtree n = n :: flat_map subtree (children n).
Proof. by destruct n. Qed.

Lemma flat_map_map {A B C} (f : A → B) (g : B → list C) (l : list A) :
  flat_map g (map f l) = flat_map (fun x => g (f x)) l.
Proof. induction l as [|x l IH]; simpl; [done|by rewrite IH]. Qed.

Lemma map_flat_map {A B C} (f : B → C) (g : A → list B) (l : list A) :
  map f (flat_map g l) = flat_map (fun x => map f (g x)) l.
Proof. induction l as [|x l IH]; simpl; [done|by rewrite map_app, IH]. Qed.

Lemma flat_map_ext_Forall {A B} (f g : A → list B) (l : list A) :
  Forall (fun x => f x = g x) l → flat_map f l = flat_map g l.
Proof. induction 1 as [|x l Hx _ IH]; simpl; [done|by rewrite Hx, IH]. Qed.

(** An update that keeps the children of the element it rewrites rewrites
    the list of all elements pointwise. *)
Lemma subtree_update_node f h n :
  (∀ m, children (f m) = children m) →
  subtree (update_node f h n) = map (update_node f h) (subtree n).
Proof.
  intros Hf. induction n as [h' t i a c ks IH] using Node_ind'.
  simpl update_node at 1.
  assert (flat_map subtree (map (update_node f h) ks) =
          map (update_node f h) (flat_map subtree ks)) as Hks.
  { rewrite flat_map_map, map_flat_map. by apply flat_map_ext_Forall. }
  rewrite (subtree_unfold (Element h' t i a c ks)). simpl map. simpl update_node.
  destruct (Nat.eqb h' h).
  - rewrite subtree_unfold, Hf. simpl. by rewrite Hks.
  - simpl. by rewrite Hks.
Qed.

Lemma all_nodes_update f h d :
  (∀ m, children (f m) = children m) →
  all_nodes (update f h d) = map (update_node f h) (all_nodes d).
Proof.
  intros Hf. unfold all_nodes, update. rewrite flat_map_map, map_flat_map.
  apply flat_map_ext_Forall, Forall_forall. intros n _. by apply subtree_update_node.
Qed.

Lemma handle_update_node f h n :
  (∀ m, handle (f m) = handle m) → handle (update_node f h n) = handle n.
Proof. intros Hf. destruct n as [h' t i a c ks]; simpl. destruct (Nat.eqb h' h); [by rewrite Hf|done]. Qed.

Lemma find_map {A B} (p : B → bool) (f : A → B) (l : list A) :
  List.find p (map f l) = f <$> List.find (fun x => p (f x)) l.
Proof. induction l as [|x l IH]; simpl; [done|]. destruct (p (f x)); [done|exact IH]. Qed.

Lemma find_ext {A} (p q : A → bool) (l : list A) :
  (∀ x, p x = q x) → List.find p l = List.find q l.
Proof. intros H. induction l as [|x l IH]; simpl; [done|]. by rewrite H, IH. Qed.

Lemma node_of_update f h d h' :
  (∀ m, children (f m) = children m) → (∀ m, handle (f m) = handle m) →
  node_of (update f h d) h' = update_node f h <$> node_of d h'.
Proof.
  intros Hc Hh. unfold node_of. rewrite all_nodes_update, find_map by done.
  f_equal. apply find_ext. intros x. unfold has_handle. by rewrite handle_update_node.
Qed.

Lemma node_of_handle d h n : node_of d h = Some n → handle n = h.
Proof.
  unfold node_of. intros H. apply List.find_some in H as [_ H].
  by apply Nat.eqb_eq in H.
Qed.

Lemma attrs_update_set_attr k v h n :
  attrs (update_node (set_attr k v) h n) =
  if Nat.eqb (handle n) h then <[k := v]> (attrs n) else attrs n.
Proof. destruct n as [h' t i a c ks]; simpl. by destruct (Nat.eqb h' h). Qed.

(** [$el.attr(k, v)] seen from one element of the document. *)
Lemma node_of_attr q k v d h n :
  node_of d h = Some n →
  ∃ n', node_of (attr q k v d) h = Some n' ∧
        attrs n' = if bool_decide (h ∈ q) then <[k := v]> (attrs n) else attrs n.
Proof.
  revert d n. induction q as [|h0 q IH]; intros d n Hn.
  - exists n. split; [done|]. rewrite bool_decide_false; [done|]. apply not_elem_of_nil.
  - cbn [attr foldl]. change (foldl _ ?d0 q) with (attr q k v d0).
    destruct (IH (update (set_attr k v) h0 d) (update_node (set_attr k v) h0 n))
      as (n' & Hn' & Hattrs).
    { rewrite node_of_update by (by intros []). by rewrite Hn. }
    exists n'. split; [done|]. rewrite Hattrs, attrs_update_set_attr.
    rewrite (node_of_handle _ _ _ Hn).
    destruct (Nat.eqb_spec h h0) as [->|Hne].
    + rewrite (bool_decide_true (h0 ∈ h0 :: q)) by left.
      case_bool_decide; [by rewrite insert_insert_eq|done].
    + case_bool_decide as E1; case_bool_decide as E2; try done.
      * exfalso. apply E2. by right.
      * apply elem_of_cons in E2 as [?|?]; done.
Qed.


(** [_setWidth] and [_setHeight] seen from one element of the document. *)
Lemma node_of_setWidth el v d h n :
  node_of (roots d) h = Some n →
  ∃ n', node_of (roots (_setWidth el v d)) h = Some n' ∧
        attrs n' =
          if bool_decide (h ∈ el) && negb (isNaN (parseInt v))
          then <["width" := to_string v]> (attrs n) else attrs n.
Proof.
  intros Hn. unfold _setWidth. destruct (isNaN (parseInt v)); simpl.
  - exists n. by rewrite andb_false_r.
  - rewrite andb_true_r. by apply node_of_attr.
Qed.

Lemma node_of_setHeight el v d h n :
  node_of (roots d) h = Some n →
  ∃ n', node_of (roots (_setHeight el v d)) h = Some n' ∧
        attrs n' =
          if bool_decide (h ∈ el) && negb (isNaN (parseInt v))
          then <["height" := to_string v]> (attrs n) else attrs n.
Proof.
  intros Hn. unfold _setHeight. destruct (isNaN (parseInt v)); simpl.
  - exists n. by rewrite andb_false_r.
  - rewrite andb_true_r. by apply node_of_attr.
Qed.

(** The document [init] leaves: the provisioned document with the
    configured dimensions set on the stage and then on the scratch canvas. *)
Lemma init_doc host hostId s d img :
  let d3 :=
    _appendImage (ElementRef host) (scratchImageId s +:+ "_" +:+ hostId)
      (_appendCanvas (Selector "body") (scratchCanvasId s)
         (_appendCanvas (Selector "body") (stageId s) d)) in
  doc (init host hostId s d img) =
  _setDimensions (by_id (roots d3) (scratchCanvasId s))
    (scratchCanvasWidth s) (scratchCanvasHeight s)
    (_setDimensions (by_id (roots d3) (stageId s)) (stageWidth s) (stageHeight s) d3).
Proof.
  intros d3. unfold init. cbv zeta. fold d3.
  match goal with
  | |- context [mkWorld ?th ?d' img [] [] ∅ 0%nat ∅ ∅ []] =>
      destruct (boot_shape th d' img (onLoad s) (onLoadError s) (onEffectError s))
        as (hs & E)
  end.
  rewrite E. reflexivity.
Qed.

(** [_setDimensions] seen from one element of the document. *)
Lemma node_of_setDimensions el wv hv d0 h n :
  node_of (roots d0) h = Some n →
  ∃ n', node_of (roots (_setDimensions el wv hv d0)) h = Some n' ∧
    attrs n' !! "width" =
      (if bool_decide (h ∈ el) && negb (isNaN (parseInt wv))
       then Some (to_string wv) else attrs n !! "width") ∧
    attrs n' !! "height" =
      (if bool_decide (h ∈ el) && negb (isNaN (parseInt hv))
       then Some (to_string hv) else attrs n !! "height").
Proof.
  intros Hn. unfold _setDimensions.
  destruct (node_of_setWidth el wv d0 h n Hn) as (n1 & Hn1 & Ha1).
  destruct (node_of_setHeight el hv _ h n1 Hn1) as (n2 & Hn2 & Ha2).
  exists n2. split; [done|]. rewrite Ha2, Ha1.
  destruct (bool_decide (h ∈ el)); simpl; [|done].
  destruct (isNaN (parseInt wv)), (isNaN (parseInt hv)); simpl; split;
    repeat (rewrite lookup_insert_eq || rewrite lookup_insert_ne by done); done.
Qed.

(** Claim C6, amended.  [init] keeps the provisioned stage and scratch
    canvas as session state and sets their dimensions, the stage first.
    Seen from any element of the provisioned document: a configured width
    or height is applied, as the string of the configured value, exactly
    when the element is the one the dimension is for and [parseInt] of the
    value is a number; otherwise the attribute stays as it was. *)
Theorem init_dimensions host hostId s d img h n :
  let d3 :=
    _appendImage (ElementRef host) (scratchImageId s +:+ "_" +:+ hostId)
      (_appendCanvas (Selector "body") (scratchCanvasId s)
         (_appendCanvas (Selector "body") (stageId s) d)) in
  let applies (el : JQuery) (v : JsValue) :=
    bool_decide (h ∈ el) && negb (isNaN (parseInt v)) in
  node_of (roots d3) h = Some n →
  stageEl (this (init host hostId s d img)) = by_id (roots d3) (stageId s) ∧
  scratchCanvasEl (this (init host hostId s d img)) = by_id (roots d3) (scratchCanvasId s) ∧
  ∃ n', node_of (roots (doc (init host hostId s d img))) h = Some n' ∧
    attrs n' !! "width" =
      (if applies (by_id (roots d3) (scratchCanvasId s)) (scratchCanvasWidth s)
       then Some (to_string (scratchCanvasWidth s))
       else if applies (by_id (roots d3) (stageId s)) (stageWidth s)
       then Some (to_string (stageWidth s))
       else attrs n !! "width") ∧
    attrs n' !! "height" =
      (if applies (by_id (roots d3) (scratchCanvasId s)) (scratchCanvasHeight s)
       then Some (to_string (scratchCanvasHeight s))
       else if applies (by_id (roots d3) (stageId s)) (stageHeight s)
       then Some (to_string (stageHeight s))
       else attrs n !! "height").
Proof.
  intros d3 applies Hn.
  assert (this (init host hostId s d img) =
          mkInstance host hostId s (by_id (roots d3) (scratchImageId s +:+ "_" +:+ hostId))
            (by_id (roots d3) (stageId s)) (by_id (roots d3) (scratchCanvasId s))) as ->.
  { unfold init. cbv zeta. fold d3.
    match goal with
    | |- context [mkWorld ?th ?d' img [] [] ∅ 0%nat ∅ ∅ []] =>
        destruct (boot_shape th d' img (onLoad s) (onLoadError s) (onEffectError s))
          as (hs & E)
    end.
    by rewrite E. }
  split; [done|]. split; [done|].
  rewrite (init_doc host hostId s d img). fold d3.
  destruct (node_of_setDimensions (by_id (roots d3) (stageId s)) (stageWidth s)
              (stageHeight s) d3 h n Hn) as (n1 & Hn1 & Hw1 & Hh1).
  destruct (node_of_setDimensions (by_id (roots d3) (scratchCanvasId s))
              (scratchCanvasWidth s) (scratchCanvasHeight s) _ h n1 Hn1)
    as (n2 & Hn2 & Hw2 & Hh2).
  exists n2. split; [done|]. unfold applies. rewrite Hw2, Hh2, Hw1, Hh1. done.
Qed.

Lemma setWidth_negative_applied :
  ¬ (∀ (v : JsValue) (el : JQuery) (d : Document),
       _setWidth el v d ≠ d → ∃ n, v = JInt n ∧ 0 ≤ n).
Proof.
  intros H. destruct (H (JInt (-5)) [1%nat] Fixture.page) as (n & [= <-] & Hn); [|lia].
  intros E. apply (f_equal (fun d => attrs <$> node_of (roots d) 1%nat)) in E.
  apply (f_equal (fun o => o ≫= (.!! "width"))) in E. vm_compute in E. discriminate E.
Qed.

End DomFacts.

Section DimensionWitnesses.
Import Js Dom Plugin Fixture.

Lemma init_dimensions_witness :
  let s := extend_defaults (sized (JInt (-5)) (JStr "tall")) in
  let d3 :=
    _appendImage (ElementRef 1) (scratchImageId s +:+ "_" +:+ "photo")
      (_appendCanvas (Selector "body") (scratchCanvasId s)
         (_appendCanvas (Selector "body") (stageId s) page)) in
  let w := init 1 "photo" s page loading in
  let applies (el : JQuery) (v : JsValue) :=
    bool_decide (2%nat ∈ el) && negb (isNaN (parseInt v)) in
  stageEl (this w) = by_id (roots d3) (stageId s) ∧
  scratchCanvasEl (this w) = by_id (roots d3) (scratchCanvasId s) ∧
  ∃ n', node_of (roots (doc w)) 2 = Some n' ∧
    attrs n' !! "width" =
      (if applies (by_id (roots d3) (scratchCanvasId s)) (scratchCanvasWidth s)
       then Some (to_string (scratchCanvasWidth s))
       else if applies (by_id (roots d3) (stageId s)) (stageWidth s)
       then Some (to_string (stageWidth s))
       else (∅ : gmap string string) !! "width") ∧
    attrs n' !! "height" =
      (if applies (by_id (roots d3) (scratchCanvasId s)) (scratchCanvasHeight s)
       then Some (to_string (scratchCanvasHeight s))
       else if applies (by_id (roots d3) (stageId s)) (stageHeight s)
       then Some (to_string (stageHeight s))
       else (∅ : gmap string string) !! "height").
Proof.
  intros s d3 w applies.
  apply (init_dimensions 1%nat "photo" s page loading 2%nat
           (Element 2 "canvas" "stage" ∅
              (list_to_map [("position", "absolute"); ("top", "-9999em"); ("left", "-9999em")])
              [])).
  vm_compute. reflexivity.
Defined.

(** Against claim C6 as it is written: a configured stage width of -5 is
    applied, and -5 is no non-negative integer. *)
Lemma init_dimensions_counterexample :
  ¬ (∀ host options now d img h n v,
       opt_stageWidth options = Some v →
       h ∈ stageEl (this (construct host options now d img)) →
       node_of (roots (doc (construct host options now d img))) h = Some n →
       attrs n !! "width" = Some (to_string v) →
       ∃ z, v = JInt z ∧ 0 ≤ z).
Proof.
  intros H.
  destruct (H 1%nat (sized (JInt (-5)) (JStr "tall")) 1234%N page loading 2%nat
              (default (Element 0 "" "" ∅ ∅ [])
                 (node_of (roots (doc (construct 1 (sized (JInt (-5)) (JStr "tall"))
                                         1234 page loading))) 2))
              (JInt (-5)))
    as (z & [= <-] & Hz).
  - reflexivity.
  - replace (stageEl _) with [2%nat] by (vm_compute; reflexivity). by left.
  - vm_compute. reflexivity.
  - vm_compute. reflexivity.
  - lia.
Qed.

End DimensionWitnesses.

(* ===================================================================== *)
(** * Facts about [buildGrid] *)
(* ===================================================================== *)

Section GridFacts.
Import Grid.

Lemma vertical_lines_more fuel k cv g x ops :
  vertical_lines fuel cv g x = Some ops → vertical_lines (fuel + k) cv g x = Some ops.
Proof.
  revert x ops. induction fuel as [|fuel IH]; intros x ops; simpl.
  - destruct (x <? width cv) eqn:E; [done|]. intros [= <-].
    destruct k; simpl; by rewrite E.
  - destruct (x <? width cv); [|done].
    destruct (vertical_lines fuel cv g (x + g)) as [ops'|] eqn:E; [|done].
    by rewrite (IH _ _ E).
Qed.

Lemma horizontal_lines_more fuel k cv g y ops :
  horizontal_lines fuel cv g y = Some ops → horizontal_lines (fuel + k) cv g y = Some ops.
Proof.
  revert y ops. induction fuel as [|fuel IH]; intros y ops; simpl.
  - destruct (y <? height cv) eqn:E; [done|]. intros [= <-].
    destruct k; simpl; by rewrite E.
  - destruct (y <? height cv); [|done].
    destruct (horizontal_lines fuel cv g (y + g)) as [ops'|] eqn:E; [|done].
    by rewrite (IH _ _ E).
Qed.

Lemma buildGrid_more fuel k cv g color lw ops :
  buildGrid fuel cv g color lw = Some ops → buildGrid (fuel + k) cv g color lw = Some ops.
Proof.
  unfold buildGrid.
  destruct (vertical_lines fuel cv g 0) as [vs|] eqn:Ev; [|done].
  destruct (horizontal_lines fuel cv g 0) as [hs|] eqn:Eh; [|done].
  by rewrite (vertical_lines_more _ k _ _ _ _ Ev), (horizontal_lines_more _ k _ _ _ _ Eh).
Qed.

(** Claim C9.  On a 100 by 100 canvas with grid size 25, [buildGrid]
    (given room for its four iterations per loop) issues exactly the
    vertical segments at x = 0, 25, 50, 75 and the horizontal segments at
    y = 0, 25, 50, 75, between setting the stroke style and stroking. *)
Theorem buildGrid_100_by_25 fuel color lineWidth :
  (4 ≤ fuel)%nat →
  ∃ ops,
    buildGrid fuel (mkCanvas 100 100) 25 color lineWidth = Some ops ∧
    ops = [SetLineWidth lineWidth; SetStrokeStyle color;
           MoveTo 0 0; LineTo 0 100; MoveTo 25 0; LineTo 25 100;
           MoveTo 50 0; LineTo 50 100; MoveTo 75 0; LineTo 75 100;
           MoveTo 0 0; LineTo 99 0; MoveTo 0 25; LineTo 99 25;
           MoveTo 0 50; LineTo 99 50; MoveTo 0 75; LineTo 99 75;
           Stroke] ∧
    vertical_xs ops = [0; 25; 50; 75] ∧
    horizontal_ys ops = [0; 25; 50; 75] ∧
    length (segments ops) = 8%nat.
Proof.
  intros Hfuel. eexists. split; [|split; [reflexivity|]].
  - replace fuel with (4 + (fuel - 4))%nat by lia. apply buildGrid_more. reflexivity.
  - repeat split; reflexivity.
Qed.

Lemma buildGrid_100_by_25_witness :
  ∃ ops,
    buildGrid 4 (mkCanvas 100 100) 25 "#ccc" 1 = Some ops ∧
    ops = [SetLineWidth 1; SetStrokeStyle "#ccc";
           MoveTo 0 0; LineTo 0 100; MoveTo 25 0; LineTo 25 100;
           MoveTo 50 0; LineTo 50 100; MoveTo 75 0; LineTo 75 100;
           MoveTo 0 0; LineTo 99 0; MoveTo 0 25; LineTo 99 25;
           MoveTo 0 50; LineTo 99 50; MoveTo 0 75; LineTo 99 75;
           Stroke] ∧
    vertical_xs ops = [0; 25; 50; 75] ∧
    horizontal_ys ops = [0; 25; 50; 75] ∧
    length (segments ops) = 8%nat.
Proof. apply (buildGrid_100_by_25 4 "#ccc" 1). lia. Defined.

End GridFacts.

(* ===================================================================== *)
(** * Provisioning and teardown on a page *)
(* ===================================================================== *)

Section Teardown.
Import Js Dom Plugin Fixture.

(** Claim C3, at a failing input.  The image variant looks for the
    element among the descendants of the target and inserts it as a
    sibling: on [<body><img id="photo"></body>], the second call of
    [_appendImage(photo, "img_photo")] inserts a second element with the
    id. *)
Theorem appendImage_twice_duplicates :
  let once := _appendImage (ElementRef 1) "img_photo" page in
  let twice := _appendImage (ElementRef 1) "img_photo" once in
  map shape (with_ident (roots once) "img_photo") = [(2%nat, "img", "img_photo")] ∧
  map shape (with_ident (roots twice) "img_photo") =
    [(3%nat, "img", "img_photo"); (2%nat, "img", "img_photo")].
Proof. vm_compute. split; reflexivity. Qed.


End Teardown.

(* ===================================================================== *)
(** * More about activations: resolution, handlers, delays *)
(* ===================================================================== *)

Section ResolutionFacts.
Import Js Dom Plugin Race Load Ledger.

Lemma resolution_racing c cb : resolution c (racing cb).
Proof. by left. Qed.










End ResolutionFacts.

Section HandlerFacts.
Import Js Dom Plugin Race Load Ledger.

























End HandlerFacts.

Section CallFacts.
Import Js Dom Plugin Race Load.



Lemma this_trigger n o w : this (trigger n o w) = this w.
Proof. done. Qed.

Lemma this_dispatch e w : this (dispatch e w) = this w.
Proof.
  unfold dispatch. generalize (nativeListeners w) as ls. intros ls. revert w.
  induction ls as [|l ls IH]; intros w; simpl; [done|].
  rewrite IH. case_bool_decide; [|done]. by destruct l.2.
Qed.

(** The plugin object is never modified after construction. *)
Lemma this_step e w w' : step e w = Some w' → this w' = this w.
Proof.
  intros Hstep. destruct e as [name target cb|t|c r|e|img]; simpl in Hstep.
  - injection Hstep as <-.
    by destruct (applyEffect_cases name target cb w) as [->|[->|(options & _ & _ & _ & ->)]].
  - destruct (timers w !! t) as [[task d]|]; [|done]. injection Hstep as <-.
    destruct task; cbn [run_task]; [|done].
    unfold _checkImageLoaded. destruct (_checkImageNotFound _); [done|].
    by destruct (complete _).
  - destruct (requests w !! c) as [rq|]; [|done]. injection Hstep as <-.
    unfold on_complete; simpl. destruct (calls w !! c) as [a|]; [|done].
    destruct (callback a); try done. by destruct (timedOut a).
  - injection Hstep as <-. apply this_dispatch.
  - by injection Hstep as <-.
Qed.

Lemma this_run es w w' : run es w = Some w' → this w' = this w.
Proof.
  revert w. induction es as [|e es IH]; intros w Hrun; simpl in Hrun.
  - by injection Hrun as <-.
  - destruct (step e w) as [w1|] eqn:Hstep; [|done]. simpl in Hrun.
    rewrite (IH _ Hrun). by eapply this_step.
Qed.




End CallFacts.

(* ===================================================================== *)
(** * More about dimensions: what [parseInt] lets through *)
(* ===================================================================== *)

Section ParseFacts.
Import Js.






End ParseFacts.

Section SizeFacts.
Import Js Dom Plugin.



End SizeFacts.

(* ===================================================================== *)
(** * More about the document: styling, removal, provisioning *)
(* ===================================================================== *)

Section StyleFacts.
Import Js Dom Plugin Shape.



Lemma css_update_set_attr k v h n : css (update_node (set_attr k v) h n) = css n.
Proof. destruct n as [h' t i a c ks]; simpl. by destruct (Nat.eqb h' h). Qed.




Lemma skeleton_update f h d :
  (∀ m, children (f m) = children m) → (∀ m, handle (f m) = handle m) →
  (∀ m, tag (f m) = tag m) → (∀ m, ident (f m) = ident m) →
  skeleton (update f h d) = skeleton d.
Proof.
  intros Hc Hh Ht Hi. unfold skeleton. rewrite all_nodes_update by done.
  rewrite map_map. apply map_ext. intros [h' t i a c ks]. simpl.
  destruct (Nat.eqb h' h); [by rewrite Hh, Ht, Hi|done].
Qed.

Lemma skeleton_attr q k v d : skeleton (attr q k v d) = skeleton d.
Proof.
  revert d. induction q as [|h q IH]; intros d; [done|].
  cbn [attr foldl]. change (foldl _ ?d0 q) with (attr q k v d0).
  rewrite IH. by apply skeleton_update; intros [].
Qed.

Lemma skeleton_set_style q props d : skeleton (set_style q props d) = skeleton d.
Proof.
  revert d. induction q as [|h q IH]; intros d; [done|].
  cbn [set_style foldl]. change (foldl _ ?d0 q) with (set_style q props d0).
  rewrite IH. by apply skeleton_update; intros [].
Qed.

(** Sizing and positioning never add, remove, reorder or rename an
    element. *)
Theorem styling_keeps_skeleton el offEl onEl wv hv d :
  skeleton (roots (_setDimensions el wv hv d)) = skeleton (roots d) ∧
  skeleton (roots (moveOffscreen el d)) = skeleton (roots d) ∧
  skeleton (roots (moveOnscreen el d)) = skeleton (roots d) ∧
  skeleton (roots (swapOnscreen offEl onEl d)) = skeleton (roots d).
Proof.
  repeat split.
  - unfold _setDimensions, _setHeight, _setWidth.
    destruct (isNaN (parseInt hv)), (isNaN (parseInt wv)); simpl;
      by rewrite ?skeleton_attr.
  - apply skeleton_set_style.
  - apply skeleton_set_style.
  - unfold swapOnscreen, moveOnscreen, moveOffscreen. simpl.
    by rewrite !skeleton_set_style.
Qed.


End StyleFacts.

Section RemoveFacts.
Import Js Dom Plugin.



Lemma in_all_nodes k l m : In k l → In m (subtree k) → In m (all_nodes l).
Proof. intros Hk Hm. apply in_flat_map. eauto. Qed.












End RemoveFacts.

Section AppendFacts.
Import Js Dom Plugin Shape.

Lemma find_app {A} (p : A → bool) (l1 l2 : list A) :
  List.find p (l1 ++ l2) =
  match List.find p l1 with Some x => Some x | None => List.find p l2 end.
Proof. induction l1 as [|x l1 IH]; simpl; [done|]. by destruct (p x). Qed.






















Lemma find_id_absent d q i :
  (∀ h, h ∈ q → node_of d h = None) → find_id d q i = [].
Proof.
  induction q as [|h q IH]; intros Habs; [done|]. simpl.
  rewrite (Habs h) by left. simpl. apply IH. intros h' Hh'. apply Habs. by right.
Qed.






Lemma filter_map_comm {A B} (p : B → bool) (f : A → B) (l : list A) :
  List.filter p (map f l) = map f (List.filter (fun x => p (f x)) l).
Proof. induction l as [|x l IH]; simpl; [done|]. destruct (p (f x)); simpl; by rewrite IH. Qed.








Lemma set_style_cons h q props d :
  set_style (h :: q) props d = set_style q props (update (set_css props) h d).
Proof. reflexivity. Qed.













End AppendFacts.

Section AfterFacts.
Import Js Dom Plugin Shape.

Lemma count_if_app {A} (p : A → bool) l1 l2 :
  count_if p (l1 ++ l2) = (count_if p l1 + count_if p l2)%nat.
Proof. unfold count_if. by rewrite List.filter_app, length_app. Qed.

Lemma count_if_cons {A} (p : A → bool) x l :
  count_if p (x :: l) = ((if p x then 1 else 0) + count_if p l)%nat.
Proof. unfold count_if; simpl. by destruct (p x). Qed.

Lemma handle_insert_after_node h new n : handle (insert_after_node h new n) = handle n.
Proof. by destruct n. Qed.

Lemma ident_insert_after_node h new n : ident (insert_after_node h new n) = ident n.
Proof. by destruct n. Qed.

Lemma children_insert_after_node h new n :
  children (insert_after_node h new n) =
  splice_after h new (map (insert_after_node h new) (children n)).
Proof. by destruct n. Qed.

Lemma splice_cons h new k l :
  splice_after h new (k :: l) =
  (if has_handle h k then [k; new] else [k]) ++ splice_after h new l.
Proof. reflexivity. Qed.

(** Inserting a childless element with id [i] after every element with
    handle [h] adds one element with that id per such element. *)
Lemma count_insert_after h new i l :
  children new = [] → ident new = i →
  count_if (has_ident i)
    (flat_map subtree (splice_after h new (map (insert_after_node h new) l))) =
  (count_if (has_ident i) (flat_map subtree l) +
   count_if (has_handle h) (flat_map subtree l))%nat.
Proof.
  intros Hleaf Hi.
  assert (count_if (has_ident i) (subtree new) = 1%nat) as Hnew.
  { rewrite subtree_unfold, Hleaf. simpl. unfold count_if; simpl.
    unfold has_ident. by rewrite bool_decide_true. }
  assert (∀ n, count_if (has_ident i)
                 (flat_map subtree
                    (splice_after h new (map (insert_after_node h new) (children n)))) =
               (count_if (has_ident i) (descendants n) +
                count_if (has_handle h) (descendants n))%nat) as Hnode.
  { induction n as [h0 t i0 a c ks IH] using Node_ind'. simpl children. unfold descendants.
    simpl children. induction IH as [|k ks Hk _ IHks]; [done|].
    cbn [map flat_map]. rewrite splice_cons, flat_map_app, !count_if_app, IHks.
    assert (has_handle h (insert_after_node h new k) = has_handle h k) as ->
      by (unfold has_handle; by rewrite handle_insert_after_node).
    rewrite (subtree_unfold k), !count_if_cons.
    fold (descendants k).
    assert (count_if (has_ident i)
              (flat_map subtree (if has_handle h k
                                 then [insert_after_node h new k; new]
                                 else [insert_after_node h new k])) =
            ((if has_ident i k then 1 else 0) +
             (count_if (has_ident i) (descendants k) +
              count_if (has_handle h) (descendants k)) +
             (if has_handle h k then 1 else 0))%nat) as ->; [|lia].
    assert (count_if (has_ident i) (subtree (insert_after_node h new k)) =
            ((if has_ident i k then 1 else 0) +
             (count_if (has_ident i) (descendants k) +
              count_if (has_handle h) (descendants k)))%nat) as Hsub.
    { rewrite subtree_unfold, count_if_cons, children_insert_after_node, Hk.
      unfold has_ident. by rewrite ident_insert_after_node. }
    destruct (has_handle h k); simpl; rewrite ?app_nil_r, ?count_if_app, Hsub, ?Hnew; lia. }
  apply (Hnode (Element 0 "" "" ∅ ∅ l)).
Qed.


(** Looking an element up after an insertion. *)
Lemma find_insert_after h new h' l :
  handle new ≠ h' → children new = [] →
  List.find (has_handle h')
    (flat_map subtree (splice_after h new (map (insert_after_node h new) l))) =
  insert_after_node h new <$> List.find (has_handle h') (flat_map subtree l).
Proof.
  intros Hnew Hleaf.
  assert (List.find (has_handle h') (subtree new) = None) as Hnone.
  { rewrite subtree_unfold, Hleaf. simpl. unfold has_handle.
    by destruct (Nat.eqb_spec (handle new) h'). }
  assert (∀ n, List.find (has_handle h')
                 (flat_map subtree
                    (splice_after h new (map (insert_after_node h new) (children n)))) =
               insert_after_node h new <$>
                 List.find (has_handle h') (descendants n)) as Hnode.
  { induction n as [h0 t i0 a c ks IH] using Node_ind'. simpl children. unfold descendants.
    simpl children. induction IH as [|k ks Hk _ IHks]; [done|].
    cbn [map flat_map]. rewrite splice_cons, flat_map_app, !find_app, IHks.
    assert (List.find (has_handle h')
              (flat_map subtree (if has_handle h (insert_after_node h new k)
                                 then [insert_after_node h new k; new]
                                 else [insert_after_node h new k])) =
            insert_after_node h new <$> List.find (has_handle h') (subtree k)) as ->.
    { assert (List.find (has_handle h') (subtree (insert_after_node h new k)) =
              insert_after_node h new <$> List.find (has_handle h') (subtree k)) as Hsub.
      { rewrite (subtree_unfold (insert_after_node h new k)), (subtree_unfold k).
        cbn [List.find]. unfold has_handle at 1 3.
        rewrite handle_insert_after_node. destruct (Nat.eqb (handle k) h'); [done|].
        rewrite children_insert_after_node. exact Hk. }
      destruct (has_handle h (insert_after_node h new k)); simpl;
        rewrite ?app_nil_r, ?find_app, Hsub, ?Hnone;
        by destruct (List.find (has_handle h') (subtree k)). }
    by destruct (List.find (has_handle h') (subtree k)). }
  apply (Hnode (Element 0 "" "" ∅ ∅ l)).
Qed.

Lemma node_of_insert_after h new h' d :
  handle new ≠ h' → children new = [] →
  node_of (insert_after h new d) h' = insert_after_node h new <$> node_of d h'.
Proof. intros. by apply find_insert_after. Qed.

Lemma with_ident_skeleton d d' i :
  skeleton d = skeleton d' → length (with_ident d i) = length (with_ident d' i).
Proof.
  intros E.
  assert (∀ d0, length (with_ident d0 i) =
                length (List.filter (fun x : nat * string * string => bool_decide (x.2 = i))
                          (skeleton d0))) as Hsk.
  { intros d0. unfold with_ident, skeleton. by rewrite filter_map_comm, length_map. }
  by rewrite !Hsk, E.
Qed.

Lemma node_of_set_style_children q props d h n :
  node_of d h = Some n → children n = [] →
  ∃ n', node_of (set_style q props d) h = Some n' ∧ children n' = [].
Proof.
  revert d n. induction q as [|h0 q IH]; intros d n Hn Hleaf; [by exists n|].
  rewrite set_style_cons.
  apply (IH _ (update_node (set_css props) h0 n)).
  - rewrite node_of_update by (by intros []). by rewrite Hn.
  - destruct n as [h1 t i a c ks]. simpl in Hleaf. subst ks. simpl.
    by destruct (Nat.eqb h1 h0).
Qed.

(** Every call of [_appendImage] on a childless host that is in the
    document inserts another element with the id, and leaves the host as
    the next call needs it. *)
Theorem appendImage_adds_every_time i d h n :
  node_of (roots d) h = Some n → children n = [] → (h < next_handle d)%nat →
  (length (with_ident (roots d) i) <
   length (with_ident (roots (_appendImage (ElementRef h) i d)) i))%nat ∧
  (∃ n', node_of (roots (_appendImage (ElementRef h) i d)) h = Some n' ∧ children n' = []) ∧
  (h < next_handle (_appendImage (ElementRef h) i d))%nat.
Proof.
  intros Hn Hleaf Hfresh. unfold _appendImage. simpl jq.
  assert (find_id (roots d) [h] i = []) as ->.
  { unfold find_id; simpl. rewrite Hn. unfold descendants. by rewrite Hleaf. }
  simpl. set (new := fresh_element "img" i d).
  set (r1 := insert_after h new (roots d)).
  assert (node_of r1 h = Some (insert_after_node h new n)) as Hn1.
  { unfold r1. rewrite node_of_insert_after, Hn; [done|simpl; lia|done]. }
  split; [|split; [|lia]].
  - match goal with
    | |- (_ < length (with_ident ?r i))%nat =>
        assert (length (with_ident r i) = length (with_ident r1 i)) as ->
          by apply with_ident_skeleton, skeleton_set_style
    end.
    unfold with_ident, r1, insert_after, all_nodes.
    change (length (List.filter (has_ident i) ?l)) with (count_if (has_ident i) l).
    rewrite (count_insert_after h new i (roots d)) by done.
    fold (all_nodes (roots d)).
    assert (0 < count_if (has_handle h) (all_nodes (roots d)))%nat; [|unfold count_if in *; lia].
    unfold node_of in Hn. apply List.find_some in Hn as [Hin Hh].
    unfold count_if. destruct (List.filter (has_handle h) (all_nodes (roots d))) eqn:E;
      [|simpl; lia].
    assert (In n (List.filter (has_handle h) (all_nodes (roots d)))) as Hf
      by (by apply List.filter_In).
    by rewrite E in Hf.
  - apply (node_of_set_style_children _ _ _ _ _ Hn1).
    rewrite children_insert_after_node, Hleaf. done.
Qed.

End AfterFacts.

(* ===================================================================== *)
(** * What the constructor provisions *)
(* ===================================================================== *)

Section InitFacts.
Import Js Dom Plugin Shape.

























End InitFacts.

(* ===================================================================== *)
(** * More about [buildGrid]: any canvas, any grid size *)
(* ===================================================================== *)

Section LineFacts.
Import Grid Lines.

Lemma iterations_le_0 extent g : 0 < g → extent ≤ 0 → iterations extent g ≤ 0.
Proof.
  intros Hg He. unfold iterations.
  assert ((extent + g - 1) / g < 1); [|lia].
  apply Z.div_lt_upper_bound; lia.
Qed.

Lemma iterations_step extent g :
  0 < g → 0 < extent → iterations extent g = 1 + iterations (extent - g) g ∧
                         0 ≤ iterations (extent - g) g.
Proof.
  intros Hg He. unfold iterations.
  replace (extent + g - 1) with ((extent - g + g - 1) + 1 * g) by lia.
  rewrite Z.div_add by lia. split; [lia|].
  apply Z.div_pos; lia.
Qed.

Lemma multiples_nil extent g : 0 < g → extent ≤ 0 → multiples extent g = [].
Proof. intros. unfold multiples. by rewrite seqZ_nil by (by apply iterations_le_0). Qed.

Lemma multiples_cons extent g :
  0 < g → 0 < extent →
  multiples extent g = 0 :: (Z.add g <$> multiples (extent - g) g).
Proof.
  intros Hg He. unfold multiples.
  destruct (iterations_step extent g Hg He) as [-> Hpos].
  rewrite seqZ_cons by lia. simpl. f_equal.
  replace (Z.pred (1 + iterations (extent - g) g)) with (iterations (extent - g) g) by lia.
  rewrite <- (fmap_add_seqZ 1 0), <- !list_fmap_compose.
  apply list_fmap_ext. intros _ k _. simpl. lia.
Qed.

Lemma vertical_lines_from fuel cv g x :
  0 < g → (Z.to_nat (iterations (width cv - x) g) ≤ fuel)%nat →
  vertical_lines fuel cv g x =
    Some (flat_map (vertical_at cv) (Z.add x <$> multiples (width cv - x) g)).
Proof.
  intros Hg. revert x. induction fuel as [|fuel IH]; intros x Hfuel; simpl.
  - destruct (Z.ltb_spec x (width cv)) as [Hlt|Hge].
    + destruct (iterations_step (width cv - x) g) as [E ?]; lia.
    + by rewrite multiples_nil by lia.
  - destruct (Z.ltb_spec x (width cv)) as [Hlt|Hge].
    + destruct (iterations_step (width cv - x) g) as [E ?]; [lia..|].
      rewrite IH by (replace (width cv - (x + g)) with (width cv - x - g) by lia; lia).
      simpl. rewrite (multiples_cons (width cv - x)) by lia. simpl.
      replace (x + 0) with x by lia.
      replace (width cv - (x + g)) with (width cv - x - g) by lia.
      do 3 f_equal. rewrite <- !list_fmap_compose. f_equal.
      apply list_fmap_ext. intros _ k _. simpl. lia.
    + by rewrite multiples_nil by lia.
Qed.

Lemma horizontal_lines_from fuel cv g y :
  0 < g → (Z.to_nat (iterations (height cv - y) g) ≤ fuel)%nat →
  horizontal_lines fuel cv g y =
    Some (flat_map (horizontal_at cv) (Z.add y <$> multiples (height cv - y) g)).
Proof.
  intros Hg. revert y. induction fuel as [|fuel IH]; intros y Hfuel; simpl.
  - destruct (Z.ltb_spec y (height cv)) as [Hlt|Hge].
    + destruct (iterations_step (height cv - y) g) as [E ?]; lia.
    + by rewrite multiples_nil by lia.
  - destruct (Z.ltb_spec y (height cv)) as [Hlt|Hge].
    + destruct (iterations_step (height cv - y) g) as [E ?]; [lia..|].
      rewrite IH by (replace (height cv - (y + g)) with (height cv - y - g) by lia; lia).
      simpl. rewrite (multiples_cons (height cv - y)) by lia. simpl.
      replace (y + 0) with y by lia.
      replace (height cv - (y + g)) with (height cv - y - g) by lia.
      do 3 f_equal. rewrite <- !list_fmap_compose. f_equal.
      apply list_fmap_ext. intros _ k _. simpl. lia.
    + by rewrite multiples_nil by lia.
Qed.

Lemma fmap_add_0 (l : list Z) : Z.add 0 <$> l = l.
Proof. rewrite <- (list_fmap_id l) at 2. apply list_fmap_ext. intros _ k _. simpl. lia. Qed.

Lemma elem_of_multiples extent g x :
  0 < g → x ∈ multiples extent g ↔ 0 ≤ x < extent ∧ (g | x).
Proof.
  intros Hg. unfold multiples, iterations. rewrite list_elem_of_fmap.
  pose proof (Z.div_mod (extent + g - 1) g ltac:(lia)) as Hdm.
  pose proof (Z.mod_pos_bound (extent + g - 1) g Hg) as Hmod.
  split.
  - intros (k & -> & Hk%elem_of_seqZ). split; [nia|by exists k].
  - intros ([Hx Hlt] & k & ->). exists k. split; [done|].
    apply elem_of_seqZ. nia.
Qed.

(** With a positive grid size [buildGrid] returns, and what it draws is:
    one vertical segment from [(x, 0)] to [(x, height)] for every multiple
    [x] of the grid size with [0 <= x < width], then one horizontal
    segment from [(0, y)] to [(width - 1, y)] for every multiple [y] of the
    grid size with [0 <= y < height], in increasing order, and one stroke. *)
Theorem buildGrid_positive_step fuel cv g color lineWidth :
  0 < g →
  (Z.to_nat (iterations (width cv) g) ≤ fuel)%nat →
  (Z.to_nat (iterations (height cv) g) ≤ fuel)%nat →
  buildGrid fuel cv g color lineWidth =
    Some ([SetLineWidth lineWidth; SetStrokeStyle color] ++
          flat_map (vertical_at cv) (multiples (width cv) g) ++
          flat_map (horizontal_at cv) (multiples (height cv) g) ++
          [Stroke]) ∧
  (∀ extent x, x ∈ multiples extent g ↔ 0 ≤ x < extent ∧ (g | x)).
Proof.
  intros Hg Hw Hh. split; [|intros extent x; by apply elem_of_multiples].
  unfold buildGrid.
  rewrite vertical_lines_from, horizontal_lines_from
    by (done || by rewrite Z.sub_0_r).
  simpl. by rewrite !Z.sub_0_r, !fmap_add_0.
Qed.


Lemma vertical_lines_never fuel cv g x :
  g ≤ 0 → x < width cv → vertical_lines fuel cv g x = None.
Proof.
  intros Hg. revert x. induction fuel as [|fuel IH]; intros x Hx; simpl.
  - by destruct (Z.ltb_spec x (width cv)); [|lia].
  - destruct (Z.ltb_spec x (width cv)); [|lia]. by rewrite IH by lia.
Qed.

Lemma horizontal_lines_never fuel cv g y :
  g ≤ 0 → y < height cv → horizontal_lines fuel cv g y = None.
Proof.
  intros Hg. revert y. induction fuel as [|fuel IH]; intros y Hy; simpl.
  - by destruct (Z.ltb_spec y (height cv)); [|lia].
  - destruct (Z.ltb_spec y (height cv)); [|lia]. by rewrite IH by lia.
Qed.

(** With a grid size of zero or less on a canvas that has any extent,
    [buildGrid] never leaves its first loop that is entered: no number of
    iterations is enough. *)
Theorem buildGrid_never_returns fuel cv g color lineWidth :
  g ≤ 0 → 0 < width cv ∨ 0 < height cv →
  buildGrid fuel cv g color lineWidth = None.
Proof.
  intros Hg Hcv. unfold buildGrid.
  destruct (Z.lt_ge_cases 0 (width cv)) as [Hw|Hw].
  - by rewrite vertical_lines_never.
  - destruct Hcv as [?|Hh]; [lia|].
    rewrite (horizontal_lines_never fuel cv g 0) by done.
    by destruct (vertical_lines fuel cv g 0).
Qed.

(** On a canvas without extent neither loop is entered, whatever the grid
    size: the context gets its two settings and one stroke. *)
Theorem buildGrid_empty_canvas fuel cv g color lineWidth :
  width cv ≤ 0 → height cv ≤ 0 →
  buildGrid fuel cv g color lineWidth =
    Some [SetLineWidth lineWidth; SetStrokeStyle color; Stroke].
Proof.
  intros Hw Hh. unfold buildGrid.
  assert (vertical_lines fuel cv g 0 = Some []) as ->.
  { destruct fuel; simpl; by destruct (Z.ltb_spec 0 (width cv)); [lia|]. }
  assert (horizontal_lines fuel cv g 0 = Some []) as ->.
  { destruct fuel; simpl; by destruct (Z.ltb_spec 0 (height cv)); [lia|]. }
  done.
Qed.

End LineFacts.

(* ===================================================================== *)
(** * The further properties on the page *)
(* ===================================================================== *)

Section PageWitnesses.
Import Js Dom Grid Plugin Race Load Fixture Ledger Shape Lines.







Lemma appendImage_adds_every_time_witness :
  (length (with_ident (roots page) "img_photo") <
   length (with_ident (roots (_appendImage (ElementRef 1) "img_photo" page)) "img_photo"))%nat ∧
  (∃ n', node_of (roots (_appendImage (ElementRef 1) "img_photo" page)) 1 = Some n' ∧
         children n' = []) ∧
  (1 < next_handle (_appendImage (ElementRef 1) "img_photo" page))%nat.
Proof.
  apply (appendImage_adds_every_time "img_photo" page 1%nat (Element 1 "img" "photo" ∅ ∅ [])).
  - reflexivity.
  - reflexivity.
  - simpl. lia.
Defined.

Lemma buildGrid_positive_step_witness :
  buildGrid 4 (mkCanvas 100 50) 30 "#ccc" 1 =
    Some ([SetLineWidth 1; SetStrokeStyle "#ccc"] ++
          flat_map (vertical_at (mkCanvas 100 50)) (multiples 100 30) ++
          flat_map (horizontal_at (mkCanvas 100 50)) (multiples 50 30) ++
          [Stroke]) ∧
  (∀ extent x, x ∈ multiples extent 30 ↔ 0 ≤ x < extent ∧ (30 | x)).
Proof.
  apply (buildGrid_positive_step 4 (mkCanvas 100 50) 30 "#ccc" 1).
  - lia.
  - vm_compute. lia.
  - vm_compute. lia.
Defined.

Lemma buildGrid_never_returns_witness :
  buildGrid 1000 (mkCanvas 10 10) 0 "#ccc" 1 = None.
Proof.
  apply (buildGrid_never_returns 1000 (mkCanvas 10 10) 0 "#ccc" 1).
  - lia.
  - left. simpl. lia.
Defined.

Lemma buildGrid_empty_canvas_witness :
  buildGrid 0 (mkCanvas 0 0) 0 "#ccc" 1 = Some [SetLineWidth 1; SetStrokeStyle "#ccc"; Stroke].
Proof. apply (buildGrid_empty_canvas 0 (mkCanvas 0 0) 0 "#ccc" 1); simpl; lia. Defined.






End PageWitnesses.
